(** * A shallow embedding of [src/spark_app.py] (NYC taxi analytics on Spark)

    The program reads a Parquet table, checks that [--attribute] is a column,
    then runs [mode_filter] or [mode_group].  Both call [apply_filters], which
    chains Spark [df.filter] calls, and then aggregate with Spark's [F.min],
    [F.max], [F.avg], [F.stddev] (and [F.count("*")] per group).

    Modelling choices.
    - A table is its column list ([df.columns], with a type tag per column)
      and its rows in order; a row is an association list from column names
      to values, a column absent from a row's list being SQL [null].
    - Attribute values are numbers ([Q], standing for the Parquet doubles) or
      strings.  The repository's [parquet_converter.py] reads the CSV with
      pandas without date parsing, so [tpep_pickup_datetime] is a string
      column.
    - Spark comparisons are three-valued: a comparison involving [null]
      yields [null], and [df.filter] keeps only rows whose predicate is
      [true].
    - The aggregates are the folds of Spark's aggregate buffers: [Min]/[Max]
      skip nulls; [Average] keeps (sum, count); [stddev] is [stddev_samp],
      whose buffer is (n, avg, m2) with the online (Welford) update, and whose
      result is null for n = 0 and for n = 1 (Spark 3 default), else
      sqrt (m2 / (n - 1)).  Sums are exact rationals here; [Double] models
      the double-precision average separately.
    - Column names are resolved as Spark 3 does by default
      ([spark.sql.caseSensitive=false]): [F.col(name)] and [groupBy(name)]
      split the name at dots (backticks quote), and a one-part name
      resolves to the unique column equal to it ignoring case; anything else
      (no such column, several, a nested or star name) is an
      [AnalysisException].  Spark analyses each DataFrame eagerly, so the
      exception is raised when the [filter], [agg] or [orderBy] is built,
      before any write.  The program's own check on [--attribute] is the
      exact, case-sensitive [in df.columns].  A table whose column names
      repeat ignoring case cannot be read by Spark's file sources; the
      theorems that need this say so with [ci_distinct].
    - Console printing is not modelled; the output location written by
      [df.write.mode("overwrite").parquet(path)] is a store from paths to
      contents. *)

From Stdlib Require Import List String Ascii ZArith QArith Qfield Lia.
From Stdlib Require Import Reals Qreals Sorted.
From Stdlib Require Floats.
Import ListNotations.
Open Scope string_scope.

(** ** Data model *)

Inductive ty := TNum | TStr.

Inductive value :=
| VNum (q : Q)
| VStr (s : string).

Definition row := list (string * value).

Record table := mk_table {
  columns : list (string * ty);
  rows : list row
}.

(** [df.columns] *)
Definition df_columns (t : table) : list string := map fst (columns t).

Definition in_columns (c : string) (t : table) : bool :=
  existsb (String.eqb c) (df_columns t).

(** [F.col(c)] evaluated on one row: [None] is SQL [null]. *)
Fixpoint lookup (c : string) (r : row) : option value :=
  match r with
  | [] => None
  | (c', v) :: r' => if String.eqb c c' then Some v else lookup c r'
  end.

Inductive Mode := ModeFilter | ModeGroup.

(** The parsed command line ([parse_args]); [--mode] is restricted to
    [filter] and [group] by argparse's [choices]. *)
Record args := mk_args {
  mode : Mode;
  attribute : string;
  min_value : option Q;
  max_value : option Q;
  start : option string;
  end_ : option string;
  group_by : option string;
  output : option string
}.

(** Python truthiness of an optional string argument ([if args.start:]). *)
Definition truthy (o : option string) : bool :=
  match o with
  | Some s => negb (String.eqb s "")
  | None => false
  end.

(** ** Spark's cast from string to double

    The decimal forms [[+-]digits[.digits]]; anything else casts to [null]
    (Spark's non-ANSI cast).  Exponents, surrounding blanks, [NaN] and
    [Infinity], which Spark's cast also accepts, are not modelled. *)

Definition digit_val (c : ascii) : option Z :=
  let n := nat_of_ascii c in
  if (48 <=? n)%nat && (n <=? 57)%nat then Some (Z.of_nat (n - 48)) else None.

Fixpoint digits (s : string) (acc : Z) (k : nat) : Z * nat * string :=
  match s with
  | String c r =>
      match digit_val c with
      | Some d => digits r (acc * 10 + d)%Z (S k)
      | None => (acc, k, s)
      end
  | EmptyString => (acc, k, s)
  end.

Definition cast_unsigned (s : string) : option Q :=
  let '(ip, ni, r) := digits s 0%Z 0 in
  match r with
  | EmptyString => if (ni =? 0)%nat then None else Some (inject_Z ip)
  | String "." r' =>
      let '(fp, nf, r'') := digits r' 0%Z 0 in
      match r'' with
      | EmptyString =>
          if (ni + nf =? 0)%nat then None
          else Some (inject_Z ip + (fp # Z.to_pos (10 ^ Z.of_nat nf)))%Q
      | _ => None
      end
  | _ => None
  end.

Definition cast_double (s : string) : option Q :=
  match s with
  | String "-" r => option_map Qopp (cast_unsigned r)
  | String "+" r => cast_unsigned r
  | _ => cast_unsigned s
  end.

(** The double a value stands for in [avg]/[stddev], which cast their input. *)
Definition to_double (v : value) : option Q :=
  match v with
  | VNum q => Some q
  | VStr s => cast_double s
  end.

(** ** Spark comparisons and [df.filter] *)

(** [F.col(c) >= F.lit(x)] and [F.col(c) <= F.lit(x)] with a double literal:
    a string column is cast to double. *)
Definition ge_num (v : option value) (x : Q) : option bool :=
  match v with
  | None => None
  | Some w => option_map (fun q => Qle_bool x q) (to_double w)
  end.

Definition le_num (v : option value) (x : Q) : option bool :=
  match v with
  | None => None
  | Some w => option_map (fun q => Qle_bool q x) (to_double w)
  end.

(** The same with a string literal: string against string compares
    lexicographically; a numeric column casts the literal to double. *)
Definition ge_str (v : option value) (x : string) : option bool :=
  match v with
  | None => None
  | Some (VStr s) =>
      Some (match String.compare s x with Lt => false | _ => true end)
  | Some (VNum q) => option_map (fun l => Qle_bool l q) (cast_double x)
  end.

Definition le_str (v : option value) (x : string) : option bool :=
  match v with
  | None => None
  | Some (VStr s) =>
      Some (match String.compare s x with Gt => false | _ => true end)
  | Some (VNum q) => option_map (fun l => Qle_bool q l) (cast_double x)
  end.

(** [df.filter(p)]: keeps, in order, the rows where [p] is [true]. *)
Definition spark_filter (p : row -> option bool) (df : list row) : list row :=
  filter (fun r => match p r with Some true => true | _ => false end) df.

Definition time_col := "tpep_pickup_datetime".

(** ** Spark's resolution of a column name

    [F.col(name)], and the string forms of [F.min], [F.max], [F.avg],
    [F.stddev], [groupBy] and [orderBy] (which PySpark turns into
    [F.col(name)]), build Spark's [Column(name)]: [*] and names ending in
    [.*] are Spark's star, any other name is split into parts by
    [UnresolvedAttribute.parseAttributeName] (dots separate parts, backticks
    quote, a doubled backtick inside quotes is one backtick).  With the
    default [spark.sql.caseSensitive = false], a one-part name resolves to
    the single column equal to it ignoring case; no such column, several of
    them, or more than one part (a field of a nested column: the table's
    columns are flat, and a table read from files has no qualifier) make
    Spark's analysis fail.  A star is taken to fail to resolve as well.
    A character of a [string] stands for a code point below 256, for which
    Java's [equalsIgnoreCase] identifies exactly [A-Z] with [a-z] and
    [U+00C0-U+00DE] (but [U+00D7]) with [U+00E0-U+00FE]. *)

Definition lower_char (c : ascii) : ascii :=
  let n := nat_of_ascii c in
  if ((65 <=? n) && (n <=? 90))%nat || ((192 <=? n) && (n <=? 222) && negb (n =? 215))%nat
  then ascii_of_nat (n + 32) else c.

Fixpoint lower (s : string) : string :=
  match s with
  | EmptyString => EmptyString
  | String c s' => String (lower_char c) (lower s')
  end.

(** Java's [a.equalsIgnoreCase(b)], Spark's case-insensitive resolver. *)
Definition eq_ignore_case (x y : string) : bool := String.eqb (lower x) (lower y).

(** [parseAttributeName], one character at a time: [prev] is the character
    before, [in_bt] whether a backtick is open, [tmp] the current part,
    [parts] the finished ones; [None] is Spark's error (a syntax error, or,
    for a leading dot, the read of [name(i - 1)] before the string). *)
Fixpoint parse_name (s : string) (prev : option ascii) (in_bt : bool)
    (tmp : string) (parts : list string) : option (list string) :=
  match s with
  | EmptyString => if in_bt then None else Some (parts ++ [tmp])%list
  | String c rest =>
      if in_bt then
        if Ascii.eqb c "`" then
          match rest with
          | String "`" rest' => parse_name rest' (Some "`"%char) true (tmp ++ "`") parts
          | String d _ =>
              if Ascii.eqb d "." then parse_name rest (Some c) false tmp parts else None
          | EmptyString => parse_name rest (Some c) false tmp parts
          end
        else parse_name rest (Some c) true (tmp ++ String c "") parts
      else if Ascii.eqb c "`" then
        if String.eqb tmp "" then parse_name rest (Some c) true tmp parts else None
      else if Ascii.eqb c "." then
        match prev, rest with
        | None, _ => None
        | Some _, EmptyString => None
        | Some p, _ =>
            if Ascii.eqb p "." then None
            else parse_name rest (Some c) false "" (parts ++ [tmp])%list
        end
      else parse_name rest (Some c) false (tmp ++ String c "") parts
  end.

Definition parse_attribute_name (name : string) : option (list string) :=
  parse_name name None false "" [].

(** [Column(name)] is a star. *)
Definition is_star (name : string) : bool :=
  String.eqb name "*" ||
  ((2 <=? String.length name)%nat &&
   String.eqb (substring (String.length name - 2) 2 name) ".*").

(** The column [name] resolves to among [cols], if Spark resolves it. *)
Definition resolve (name : string) (cols : list string) : option string :=
  if is_star name then None
  else
    match parse_attribute_name name with
    | Some [n] =>
        match filter (eq_ignore_case n) cols with
        | [c] => Some c
        | _ => None
        end
    | _ => None
    end.

Definition resolves (name : string) (t : table) : bool :=
  match resolve name (df_columns t) with Some _ => true | None => false end.

(** The column [F.col(name)] reads in [t]: the one Spark resolves [name]
    to.  Where [name] does not resolve, Spark's analysis fails and a run
    fails before it reads any row (see [refs_resolve]); the name itself
    stands in there. *)
Definition col_of (t : table) (name : string) : string :=
  match resolve name (df_columns t) with Some c => c | None => name end.

(** The names [apply_filters] hands to [F.col] for [a]. *)
Definition filter_refs (t : table) (a : args) : list string :=
  ((if in_columns time_col t then
      (if truthy (start a) then [time_col] else []) ++
      (if truthy (end_ a) then [time_col] else [])
    else []) ++
   (match min_value a with Some _ => [attribute a] | None => [] end) ++
   (match max_value a with Some _ => [attribute a] | None => [] end))%list.

(** Spark resolves every column [apply_filters] refers to. *)
Definition refs_resolve (t : table) (a : args) : bool :=
  forallb (fun c => resolves c t) (filter_refs t a).

(** The aliases of the aggregate columns of [mode_group]; the grouped
    result's columns are the grouping column followed by these. *)
Definition agg_aliases : list string := ["count"; "min"; "max"; "avg"; "stddev"].

(** No two columns are equal ignoring case.  Spark's file sources refuse to
    read a table whose schema has such duplicates. *)
Fixpoint ci_distinct (cols : list string) : bool :=
  match cols with
  | [] => true
  | c :: cs => negb (existsb (eq_ignore_case c) cs) && ci_distinct cs
  end.

(** [apply_filters(df, args)].  [F.col("tpep_pickup_datetime")] is only
    evaluated when that exact name is a column, which is then the column it
    resolves to whenever it resolves. *)
Definition apply_filters (t : table) (a : args) : list row :=
  let attr := col_of t (attribute a) in
  let df := rows t in
  let df :=
    if in_columns time_col t then
      let df := match start a with
                | Some s => if truthy (Some s)
                            then spark_filter (fun r => ge_str (lookup time_col r) s) df
                            else df
                | None => df
                end in
      match end_ a with
      | Some s => if truthy (Some s)
                  then spark_filter (fun r => le_str (lookup time_col r) s) df
                  else df
      | None => df
      end
    else df in
  let df := match min_value a with
            | Some m => spark_filter (fun r => ge_num (lookup attr r) m) df
            | None => df
            end in
  match max_value a with
  | Some m => spark_filter (fun r => le_num (lookup attr r) m) df
  | None => df
  end.

(** ** Aggregates *)

(** The ordering Spark uses for [min]/[max] and [orderBy]: numbers
    numerically, strings lexicographically (a column has one type, so the
    mixed cases never meet). *)
Definition value_compare (a b : value) : comparison :=
  match a, b with
  | VNum x, VNum y => Qcompare x y
  | VStr x, VStr y => String.compare x y
  | VNum _, VStr _ => Lt
  | VStr _, VNum _ => Gt
  end.

(** [F.min] and [F.max]: nulls are skipped. *)
Definition min_step (acc : option value) (v : option value) : option value :=
  match v with
  | None => acc
  | Some x =>
      match acc with
      | None => Some x
      | Some y => match value_compare x y with Lt => Some x | _ => Some y end
      end
  end.

Definition max_step (acc : option value) (v : option value) : option value :=
  match v with
  | None => acc
  | Some x =>
      match acc with
      | None => Some x
      | Some y => match value_compare x y with Gt => Some x | _ => Some y end
      end
  end.

(** A column value as the double [avg] and [stddev] read: [null] and strings
    that do not cast are skipped. *)
Definition cast_value (v : option value) : option Q :=
  match v with
  | Some w => to_double w
  | None => None
  end.

(** [F.avg]: buffer (sum, count) over the values that cast to a double. *)
Definition avg_step (acc : Q * nat) (v : option value) : Q * nat :=
  match cast_value v with
  | None => acc
  | Some q => let '(s, c) := acc in ((s + q)%Q, S c)
  end.

Definition Q_of_nat (n : nat) : Q := inject_Z (Z.of_nat n).

Definition avg_eval (acc : Q * nat) : option Q :=
  let '(s, c) := acc in
  if (c =? 0)%nat then None else Some (s / Q_of_nat c)%Q.

(** [F.stddev] ([stddev_samp]): buffer (n, avg, m2), online update. *)
Record moments := mk_moments { m_n : nat; m_avg : Q; m_m2 : Q }.

Definition moments0 := mk_moments 0 0 0.

Definition moment_update (b : moments) (q : Q) : moments :=
  let newN := S (m_n b) in
  let delta := (q - m_avg b)%Q in
  let deltaN := (delta / Q_of_nat newN)%Q in
  mk_moments newN (m_avg b + deltaN)%Q (m_m2 b + delta * (delta - deltaN))%Q.

Definition moment_step (b : moments) (v : option value) : moments :=
  match cast_value v with
  | None => b
  | Some q => moment_update b q
  end.

Definition stddev_eval (b : moments) : option R :=
  if (m_n b =? 0)%nat then None
  else if (m_n b =? 1)%nat then None
  else Some (sqrt (Q2R (m_m2 b / (Q_of_nat (m_n b) - 1))%Q)).

(** One row of [df.agg(min, max, avg, stddev)]. *)
Record agg := mk_agg {
  st_min : option value;
  st_max : option value;
  st_avg : option Q;
  st_stddev : option R
}.

Definition attr_values (attr : string) (df : list row) : list (option value) :=
  map (lookup attr) df.

Definition aggregate (attr : string) (df : list row) : agg :=
  let vs := attr_values attr df in
  mk_agg (fold_left min_step vs None)
         (fold_left max_step vs None)
         (avg_eval (fold_left avg_step vs (0%Q, 0%nat)))
         (stddev_eval (fold_left moment_step vs moments0)).

(** One row of the grouped result: [F.count("*")] and the aggregate. *)
Record stats := mk_stats { st_count : nat; st_agg : agg }.

(** ** Grouping: [groupBy(group_by) ... .orderBy(group_by)]

    Groups are kept sorted by key, [null] first (Spark's ascending order puts
    nulls first); each group keeps its rows in table order. *)
Definition key_compare (a b : option value) : comparison :=
  match a, b with
  | None, None => Eq
  | None, Some _ => Lt
  | Some _, None => Gt
  | Some x, Some y => value_compare x y
  end.

Fixpoint insert_group (k : option value) (r : row)
    (gs : list (option value * list row)) : list (option value * list row) :=
  match gs with
  | [] => [(k, [r])]
  | (k', rs) :: gs' =>
      match key_compare k k' with
      | Eq => (k', (rs ++ [r])%list) :: gs'
      | Lt => (k, [r]) :: gs
      | Gt => (k', rs) :: insert_group k r gs'
      end
  end.

Definition group_rows (col : string) (df : list row) : list (option value * list row) :=
  fold_left (fun gs r => insert_group (lookup col r) r gs) df [].

Definition grouped_stats (col attr : string) (df : list row)
    : list (option value * stats) :=
  map (fun '(k, rs) => (k, mk_stats (List.length rs) (aggregate attr rs)))
      (group_rows col df).

(** ** The modes and [main] *)

Inductive error :=
| AttributeNotFound    (* main: ValueError "Attribute ... not found" *)
| GroupByRequired      (* mode_group: ValueError "--group_by is required" *)
| AnalysisException.   (* Spark: a column name it cannot resolve *)

Inductive report :=
| RFilter (count : nat) (stats : option agg)
| RGroup (groups : list (option value * stats)).

Inductive outcome := Ok (r : report) | Err (e : error).

Inductive out_data :=
| OutRows (df : list row)
| OutGroups (g : list (option value * stats)).

(** The output locations: path to the data last written there. *)
Definition store := string -> option out_data.

(** [write.mode("overwrite").parquet(path)] *)
Definition write (fs : store) (p : string) (d : out_data) : store :=
  fun q => if String.eqb q p then Some d else fs q.

Definition write_if (fs : store) (o : option string) (d : out_data) : store :=
  match o with
  | Some p => if truthy (Some p) then write fs p d else fs
  | None => fs
  end.

(** [mode_filter(df, args)] *)
Definition mode_filter (fs : store) (t : table) (a : args) : outcome * store :=
  if negb (refs_resolve t a) then (Err AnalysisException, fs)
  else
  let df_filtered := apply_filters t a in
  let count := List.length df_filtered in
  if (count =? 0)%nat then (Ok (RFilter 0 None), fs)
  else
    (* [df_filtered.agg(F.min(attribute), ...)] resolves [attribute] *)
    if negb (resolves (attribute a) t) then (Err AnalysisException, fs)
    else
    let st := aggregate (col_of t (attribute a)) df_filtered in
    (Ok (RFilter count (Some st)), write_if fs (output a) (OutRows df_filtered)).

(** [mode_group(df, args)] *)
Definition mode_group (fs : store) (t : table) (a : args) : outcome * store :=
  match group_by a with
  | None => (Err GroupByRequired, fs)
  | Some g =>
      if negb (truthy (Some g)) then (Err GroupByRequired, fs)
      else
        if negb (refs_resolve t a) then (Err AnalysisException, fs)
        else
        let df_filtered := apply_filters t a in
        (* [groupBy(group_by).agg(..., F.min(attribute), ...)] *)
        match resolve g (df_columns t) with
        | None => (Err AnalysisException, fs)
        | Some c =>
            if negb (resolves (attribute a) t) then (Err AnalysisException, fs)
            else
            (* [.orderBy(group_by)] over the columns [c, count, min, ...] *)
            match resolve g (c :: agg_aliases) with
            | None => (Err AnalysisException, fs)
            | Some _ =>
                let grouped := grouped_stats c (col_of t (attribute a)) df_filtered in
                (Ok (RGroup grouped), write_if fs (output a) (OutGroups grouped))
            end
        end
  end.

(** [main()], after the table has been read. *)
Definition main (fs : store) (t : table) (a : args) : outcome * store :=
  if negb (in_columns (attribute a) t) then (Err AttributeNotFound, fs)
  else
    match mode a with
    | ModeFilter => mode_filter fs t a
    | ModeGroup => mode_group fs t a
    end.

(** Every [Stats] value a run reports: the filter-mode statistics row (with
    the filtered row count) or the rows of the grouped result. *)
Definition report_stats (r : report) : list stats :=
  match r with
  | RFilter c (Some s) => [mk_stats c s]
  | RFilter _ None => []
  | RGroup gs => map snd gs
  end.

(** ** Concrete inputs (the spec's scenario table) *)

Definition amt_zone (x : Z) (z : string) : row :=
  [("amt", VNum (inject_Z x)); ("zone", VStr z)].

Definition scenario_table : table :=
  mk_table [("amt", TNum); ("zone", TStr)]
           [amt_zone 10 "A"; amt_zone 20 "A"; amt_zone 5 "B"].

Definition empty_store : store := fun _ => None.

Definition query (m : Mode) (attr : string) : args :=
  mk_args m attr None None None None None None.


(** One row whose [amt] is null. *)
Definition null_amt_table : table :=
  mk_table [("amt", TNum); ("zone", TStr)] [[("zone", VStr "A")]].

Definition with_mode (a : args) (m : Mode) : args :=
  mk_args m (attribute a) (min_value a) (max_value a) (start a) (end_ a)
          (group_by a) (output a).

Definition with_times (a : args) (s e : option string) : args :=
  mk_args (mode a) (attribute a) (min_value a) (max_value a) s e
          (group_by a) (output a).

(** ** Reference definitions, following the spec's words *)

(** The numbers [avg] and [stddev] read from a column. *)
Definition num_values (vs : list (option value)) : list Q :=
  flat_map (fun v => match cast_value v with Some q => [q] | None => [] end) vs.

Definition sumQ (ns : list Q) : Q := fold_right Qplus 0%Q ns.

Definition mean (ns : list Q) : Q := (sumQ ns / Q_of_nat (List.length ns))%Q.

(** Sample standard deviation: divisor count - 1, undefined below two values. *)
Definition sample_stddev (ns : list Q) : option R :=
  if (List.length ns <? 2)%nat then None
  else Some (sqrt (Q2R (sumQ (map (fun x => (x - mean ns) * (x - mean ns)) ns)
                        / (Q_of_nat (List.length ns) - 1))%Q)).

(** The count a report states: the filtered row count in filter mode, the
    sum of the group counts in group mode. *)
Definition report_count (r : report) : nat :=
  match r with
  | RFilter c _ => c
  | RGroup gs => list_sum (map (fun g => st_count (snd g)) gs)
  end.

(** ** [F.avg] over doubles

    Spark's [Average] over a [DoubleType] column: the double sum of the
    values, divided by the count cast to double; [Max] in double order. *)
Module Double.
Import Floats.

Definition avg (xs : list float) : float :=
  PrimFloat.div (fold_left PrimFloat.add xs 0%float)
                (PrimFloat.of_uint63 (Uint63.of_Z (Z.of_nat (List.length xs)))).

Definition max (xs : list float) : float :=
  fold_left (fun m x => if PrimFloat.ltb m x then x else m) (tl xs) (hd 0%float xs).

(** The double nearest to 0.1. *)
Definition tenth : float := 0x1.999999999999ap-4%float.

End Double.

(** ** Further definitions used by the properties *)

Definition numeric_values (vs : list (option value)) : Prop :=
  forall v, In (Some v) vs -> exists q, v = VNum q.

(** The invariant of the online update: [avg * n] is the sum and [m2] is the
    sum of squares minus [avg^2 * n]. *)
Definition moments_inv (b : moments) (s sq : Q) : Prop :=
  (m_avg b * Q_of_nat (m_n b) == s)%Q /\
  (m_m2 b == sq - m_avg b * m_avg b * Q_of_nat (m_n b))%Q.

Definition group_total (gs : list (option value * list row)) : nat :=
  list_sum (map (fun g => List.length (snd g)) gs).

Definition error_of (o : outcome) : option error :=
  match o with Ok _ => None | Err e => Some e end.

Definition trips_table : table :=
  mk_table [("tpep_pickup_datetime", TStr); ("amt", TNum)]
           [[("tpep_pickup_datetime", VStr "2016-01-01 00:00:00");
             ("amt", VNum 10)]].


Definition bounded_args : args :=
  mk_args ModeFilter "amt" (Some 8%Q) None None None None None.

(** A table with a null [amt] that the bound drops. *)
Definition with_null_table : table :=
  mk_table [("amt", TNum); ("zone", TStr)]
           [amt_zone 10 "A"; [("zone", VStr "C")]; amt_zone 20 "A"].

Definition output_args : args :=
  mk_args ModeFilter "amt" (Some 100%Q) None None None None (Some "hdfs:///out").



(** ** Definitions for the further properties *)

(** How [df.filter] reads a three-valued condition. *)
Definition holds (b : option bool) : bool :=
  match b with Some true => true | _ => false end.

(** A row satisfies every condition [apply_filters] applies for [a]. *)
Definition passes (t : table) (a : args) (r : row) : bool :=
  let attr := col_of t (attribute a) in
  (if in_columns time_col t then
     (match start a with
      | Some s => if truthy (Some s) then holds (ge_str (lookup time_col r) s) else true
      | None => true
      end) &&
     (match end_ a with
      | Some s => if truthy (Some s) then holds (le_str (lookup time_col r) s) else true
      | None => true
      end)
   else true) &&
  (match min_value a with Some m => holds (ge_num (lookup attr r) m) | None => true end) &&
  (match max_value a with Some m => holds (le_num (lookup attr r) m) | None => true end).

(** Two group keys fall in the same group. *)
Definition key_eqb (x y : option value) : bool :=
  match key_compare x y with Eq => true | _ => false end.

(** What [group_rows col p] keeps: keys strictly ascending, each group
    exactly the rows of [p] whose key compares equal to it (and at least one),
    and every row of [p] in some group. *)
Definition groups_inv (col : string) (p : list row)
    (gs : list (option value * list row)) : Prop :=
  StronglySorted (fun x y => key_compare x y = Lt) (map fst gs) /\
  (forall k rs, In (k, rs) gs ->
     rs = filter (fun r => key_eqb (lookup col r) k) p /\ rs <> []) /\
  (forall r, In r p -> exists k rs, In (k, rs) gs /\ key_eqb (lookup col r) k = true).

(** Group the scenario table by [zone]. *)
Definition zone_args : args :=
  mk_args ModeGroup "amt" None None None None (Some "zone") None.

(** Bounds that cross: [min_value] above [max_value]. *)
Definition crossed_args : args :=
  mk_args ModeFilter "amt" (Some 100%Q) (Some 1%Q) None None None None.

(** A filter run with an output location. *)
Definition written_args : args :=
  mk_args ModeFilter "amt" (Some 8%Q) None None None None (Some "hdfs:///out").

(** A group run whose filter keeps no row, with an output location. *)
Definition empty_group_args : args :=
  mk_args ModeGroup "amt" (Some 100%Q) None None None (Some "zone") (Some "hdfs:///out").

(** * Properties *)

Example cast_double_ex : cast_double "-12.5" = Some (Qopp ((12 # 1) + (5 # 10)))%Q.
Proof. reflexivity. Qed.

Example scenario_3_groups :
  map (fun g => (fst g, st_count (snd g)))
      (match fst (main empty_store scenario_table
                       (mk_args ModeGroup "amt" None None None None (Some "zone") None))
       with Ok (RGroup gs) => gs | _ => [] end)
  = [(Some (VStr "A"), 2%nat); (Some (VStr "B"), 1%nat)].
Proof. reflexivity. Qed.

(** ** Folds that skip nulls *)

Lemma num_values_cons : forall v vs,
  num_values (v :: vs) =
  match cast_value v with Some q => q :: num_values vs | None => num_values vs end.
Proof. intros v vs. unfold num_values. simpl. destruct (cast_value v); reflexivity. Qed.

Lemma fold_moment_values : forall vs b,
  fold_left moment_step vs b = fold_left moment_update (num_values vs) b.
Proof.
  induction vs as [|v vs IH]; intros b; [reflexivity|].
  cbn [fold_left]. rewrite num_values_cons. unfold moment_step at 2.
  destruct (cast_value v); simpl; apply IH.
Qed.

Lemma fold_avg_values : forall vs s c,
  (fst (fold_left avg_step vs (s, c)) == s + sumQ (num_values vs))%Q /\
  snd (fold_left avg_step vs (s, c)) = (c + List.length (num_values vs))%nat.
Proof.
  induction vs as [|v vs IH]; intros s c.
  - simpl. split; [ring | lia].
  - cbn [fold_left]. rewrite num_values_cons.
    assert (E : avg_step (s, c) v =
                match cast_value v with Some q => ((s + q)%Q, S c) | None => (s, c) end)
      by (unfold avg_step; destruct (cast_value v); reflexivity).
    rewrite E. destruct (cast_value v) as [q|].
    + destruct (IH (s + q) (S c)) as [H1 H2]. simpl. split.
      * rewrite H1. ring.
      * rewrite H2. lia.
    + apply IH.
Qed.

Lemma Q_of_nat_S : forall n, Q_of_nat (S n) == Q_of_nat n + 1.
Proof.
  intros n. unfold Q_of_nat. rewrite Nat2Z.inj_succ, <- Z.add_1_r, inject_Z_plus.
  reflexivity.
Qed.

Lemma Q_of_nat_S_nonzero : forall n, ~ Q_of_nat (S n) == 0.
Proof. intros n H. unfold Q_of_nat, Qeq in H. simpl in H. lia. Qed.

Lemma Q_of_nat_pos : forall n, (0 < n)%nat -> 0 < Q_of_nat n.
Proof.
  intros n Hn. unfold Q_of_nat, Qlt. simpl. lia.
Qed.


Lemma moment_update_inv : forall b s sq x,
  moments_inv b s sq -> moments_inv (moment_update b x) (s + x) (sq + x * x).
Proof.
  intros [n a m2] s sq x [Hs Hm]. unfold moments_inv, moment_update in *.
  simpl in *. pose proof (Q_of_nat_S_nonzero n) as Hnz.
  assert (Hn : Q_of_nat n == Q_of_nat (S n) - 1) by (rewrite Q_of_nat_S; ring).
  rewrite Hn in Hs, Hm. rewrite <- Hs, Hm.
  split; field; exact Hnz.
Qed.

Lemma fold_moments_inv : forall ns b s sq,
  moments_inv b s sq ->
  moments_inv (fold_left moment_update ns b)
              (s + sumQ ns) (sq + sumQ (map (fun x => x * x) ns)) /\
  m_n (fold_left moment_update ns b) = (m_n b + List.length ns)%nat.
Proof.
  induction ns as [|x ns IH]; intros b s sq Hb; simpl.
  - split; [|lia]. destruct Hb as [H1 H2]. split.
    + rewrite H1. ring.
    + rewrite H2. ring.
  - destruct (IH _ _ _ (moment_update_inv b s sq x Hb)) as [[H1 H2] H3].
    split; [split|].
    + rewrite H1. ring.
    + rewrite H2. ring.
    + rewrite H3. simpl. lia.
Qed.

Lemma sum_sq_dev : forall ns m,
  sumQ (map (fun x => (x - m) * (x - m)) ns) ==
  sumQ (map (fun x => x * x) ns) - 2 * m * sumQ ns + m * m * Q_of_nat (List.length ns).
Proof.
  induction ns as [|x ns IH]; intros m; simpl.
  - unfold Q_of_nat. simpl. ring.
  - rewrite IH, Q_of_nat_S. ring.
Qed.

Lemma Q_of_nat_SS_minus1_nonzero : forall k, ~ Q_of_nat (S (S k)) - 1 == 0.
Proof.
  intros k H. rewrite !Q_of_nat_S in H.
  assert (Hk : 0 <= Q_of_nat k) by (unfold Q_of_nat, Qle; simpl; lia).
  assert (Hc : 0 < Q_of_nat k + 1 + 1 - 1).
  { setoid_replace (Q_of_nat k + 1 + 1 - 1) with (Q_of_nat k + 1) by ring.
    apply Qlt_le_trans with (0 + 1); [reflexivity|].
    apply Qplus_le_compat; [exact Hk | apply Qle_refl]. }
  rewrite H in Hc. discriminate Hc.
Qed.

(** ** Minimum, maximum and mean of numeric values *)


Lemma numeric_values_cons : forall v vs,
  numeric_values (v :: vs) -> numeric_values vs.
Proof. intros v vs H w Hw. apply H. right. exact Hw. Qed.

Lemma min_step_num : forall x m,
  exists m1, min_step (Some (VNum m)) (Some (VNum x)) = Some (VNum m1) /\
             m1 <= m /\ m1 <= x.
Proof.
  intros x m. unfold min_step, value_compare.
  destruct (Qcompare x m) eqn:E.
  - exists m. apply Qeq_alt in E. rewrite E. split; [reflexivity | split; apply Qle_refl].
  - exists x. apply Qlt_alt in E. split; [reflexivity|].
    split; [apply Qlt_le_weak; exact E | apply Qle_refl].
  - exists m. apply Qgt_alt in E. split; [reflexivity|].
    split; [apply Qle_refl | apply Qlt_le_weak; exact E].
Qed.

Lemma max_step_num : forall x m,
  exists m1, max_step (Some (VNum m)) (Some (VNum x)) = Some (VNum m1) /\
             m <= m1 /\ x <= m1.
Proof.
  intros x m. unfold max_step, value_compare.
  destruct (Qcompare x m) eqn:E.
  - exists m. apply Qeq_alt in E. rewrite E. split; [reflexivity | split; apply Qle_refl].
  - exists m. apply Qlt_alt in E. split; [reflexivity|].
    split; [apply Qle_refl | apply Qlt_le_weak; exact E].
  - exists x. apply Qgt_alt in E. split; [reflexivity|].
    split; [apply Qlt_le_weak; exact E | apply Qle_refl].
Qed.

Lemma min_fold_some : forall vs m,
  numeric_values vs ->
  exists m', fold_left min_step vs (Some (VNum m)) = Some (VNum m') /\
             m' <= m /\ (forall q, In q (num_values vs) -> m' <= q).
Proof.
  induction vs as [|v vs IH]; intros m Hnum.
  - exists m. split; [reflexivity|]. split; [apply Qle_refl | intros q []].
  - pose proof (numeric_values_cons _ _ Hnum) as Hnum'.
    rewrite num_values_cons. destruct v as [w|].
    + destruct (Hnum w (or_introl eq_refl)) as [x ->].
      destruct (min_step_num x m) as (m1 & E1 & Hm1 & Hx1).
      destruct (IH m1 Hnum') as (m' & E' & Hm' & Hall).
      exists m'. cbn [fold_left]. rewrite E1. split; [exact E'|].
      split; [apply Qle_trans with m1; assumption|].
      intros q [<-|Hq]; [apply Qle_trans with m1; assumption | apply Hall, Hq].
    + destruct (IH m Hnum') as (m' & E' & Hm' & Hall).
      exists m'. split; [exact E' | split; assumption].
Qed.

Lemma max_fold_some : forall vs m,
  numeric_values vs ->
  exists m', fold_left max_step vs (Some (VNum m)) = Some (VNum m') /\
             m <= m' /\ (forall q, In q (num_values vs) -> q <= m').
Proof.
  induction vs as [|v vs IH]; intros m Hnum.
  - exists m. split; [reflexivity|]. split; [apply Qle_refl | intros q []].
  - pose proof (numeric_values_cons _ _ Hnum) as Hnum'.
    rewrite num_values_cons. destruct v as [w|].
    + destruct (Hnum w (or_introl eq_refl)) as [x ->].
      destruct (max_step_num x m) as (m1 & E1 & Hm1 & Hx1).
      destruct (IH m1 Hnum') as (m' & E' & Hm' & Hall).
      exists m'. cbn [fold_left]. rewrite E1. split; [exact E'|].
      split; [apply Qle_trans with m1; assumption|].
      intros q [<-|Hq]; [apply Qle_trans with m1; assumption | apply Hall, Hq].
    + destruct (IH m Hnum') as (m' & E' & Hm' & Hall).
      exists m'. split; [exact E' | split; assumption].
Qed.

Lemma min_fold_none : forall vs,
  numeric_values vs -> num_values vs <> [] ->
  exists m', fold_left min_step vs None = Some (VNum m') /\
             (forall q, In q (num_values vs) -> m' <= q).
Proof.
  induction vs as [|v vs IH]; intros Hnum Hne; [contradiction Hne; reflexivity|].
  pose proof (numeric_values_cons _ _ Hnum) as Hnum'.
  rewrite num_values_cons in *. destruct v as [w|].
  - destruct (Hnum w (or_introl eq_refl)) as [x ->].
    destruct (min_fold_some vs x Hnum') as (m' & E' & Hm' & Hall).
    exists m'. split; [exact E'|].
    intros q [<-|Hq]; [exact Hm' | apply Hall, Hq].
  - apply IH; assumption.
Qed.

Lemma max_fold_none : forall vs,
  numeric_values vs -> num_values vs <> [] ->
  exists m', fold_left max_step vs None = Some (VNum m') /\
             (forall q, In q (num_values vs) -> q <= m').
Proof.
  induction vs as [|v vs IH]; intros Hnum Hne; [contradiction Hne; reflexivity|].
  pose proof (numeric_values_cons _ _ Hnum) as Hnum'.
  rewrite num_values_cons in *. destruct v as [w|].
  - destruct (Hnum w (or_introl eq_refl)) as [x ->].
    destruct (max_fold_some vs x Hnum') as (m' & E' & Hm' & Hall).
    exists m'. split; [exact E'|].
    intros q [<-|Hq]; [exact Hm' | apply Hall, Hq].
  - apply IH; assumption.
Qed.

Lemma sumQ_lower : forall ns m,
  (forall q, In q ns -> m <= q) -> m * Q_of_nat (List.length ns) <= sumQ ns.
Proof.
  induction ns as [|x ns IH]; intros m H.
  - unfold Q_of_nat. simpl. rewrite Qmult_0_r. apply Qle_refl.
  - cbn [List.length sumQ fold_right]. rewrite Q_of_nat_S.
    setoid_replace (m * (Q_of_nat (List.length ns) + 1))
      with (m + m * Q_of_nat (List.length ns)) by ring.
    apply Qplus_le_compat; [apply H; left; reflexivity|].
    apply IH. intros q Hq. apply H. right. exact Hq.
Qed.

Lemma sumQ_upper : forall ns m,
  (forall q, In q ns -> q <= m) -> sumQ ns <= m * Q_of_nat (List.length ns).
Proof.
  induction ns as [|x ns IH]; intros m H.
  - unfold Q_of_nat. simpl. rewrite Qmult_0_r. apply Qle_refl.
  - cbn [List.length sumQ fold_right]. rewrite Q_of_nat_S.
    setoid_replace (m * (Q_of_nat (List.length ns) + 1))
      with (m + m * Q_of_nat (List.length ns)) by ring.
    apply Qplus_le_compat; [apply H; left; reflexivity|].
    apply IH. intros q Hq. apply H. right. exact Hq.
Qed.

Lemma moments0_inv : moments_inv moments0 0 0.
Proof. unfold moments_inv, moments0, Q_of_nat. simpl. split; ring. Qed.

(** The buffer of [F.stddev] after a column: its count, and its [m2] is the
    sum of squared deviations from the mean. *)
Lemma stddev_buffer : forall ns,
  let b := fold_left moment_update ns moments0 in
  m_n b = List.length ns /\
  (List.length ns <> 0%nat -> m_avg b == mean ns) /\
  m_m2 b == sumQ (map (fun x => (x - mean ns) * (x - mean ns)) ns).
Proof.
  intros ns b.
  destruct (fold_moments_inv ns moments0 0 0 moments0_inv) as [[Hs Hm] Hn].
  fold b in Hs, Hm, Hn. simpl in Hn. rewrite Hn in Hs, Hm.
  assert (Hsum : sumQ ns == m_avg b * Q_of_nat (List.length ns))
    by (rewrite Hs; ring).
  rewrite sum_sq_dev.
  destruct (List.length ns) as [|k] eqn:Hlen.
  - split; [exact Hn|]. split; [intros H; contradiction H; reflexivity|].
    rewrite Hm, Hsum. unfold Q_of_nat. simpl. ring.
  - assert (Hmean : m_avg b == mean ns).
    { unfold mean. rewrite Hlen, Hsum. field. apply Q_of_nat_S_nonzero. }
    split; [exact Hn|]. split; [intros _; exact Hmean|].
    rewrite Hm, Hsum, <- Hmean. ring.
Qed.

(** The numeric values of a column and the mean [F.avg] returns. *)
Lemma avg_of_values : forall vs,
  num_values vs <> [] ->
  exists a, avg_eval (fold_left avg_step vs (0%Q, 0%nat)) = Some a /\
            a == sumQ (num_values vs) / Q_of_nat (List.length (num_values vs)).
Proof.
  intros vs Hne. destruct (fold_avg_values vs 0 0) as [H1 H2].
  destruct (fold_left avg_step vs (0%Q, 0%nat)) as [s c]. simpl in H1, H2.
  subst c. destruct (num_values vs) as [|x ns] eqn:E; [contradiction Hne; reflexivity|].
  exists (s / Q_of_nat (List.length (x :: ns))). split.
  - reflexivity.
  - rewrite H1. setoid_replace (0 + sumQ (x :: ns)) with (sumQ (x :: ns)) by ring.
    reflexivity.
Qed.

(** ** C6 *)

(** C6: in every partition the reported standard deviation is the sample
    standard deviation of the partition's attribute values: divisor
    count - 1, and null when fewer than two values are present. *)
Theorem stddev_is_sample_stddev : forall attr df,
  st_stddev (aggregate attr df) = sample_stddev (num_values (attr_values attr df)).
Proof.
  intros attr df. unfold aggregate. cbn [st_stddev].
  rewrite fold_moment_values.
  set (ns := num_values (attr_values attr df)).
  destruct (stddev_buffer ns) as (Hn & _ & Hm).
  set (b := fold_left moment_update ns moments0) in *.
  unfold stddev_eval, sample_stddev. rewrite Hn.
  destruct (List.length ns) as [|[|k]] eqn:Hlen; try reflexivity.
  simpl. f_equal. f_equal. apply Qeq_eqR. rewrite Hm. reflexivity.
Qed.

(** ** C8 *)

(** C8 (amended): over a column whose non-null values are numbers and which
    has at least one, computed exactly, min <= mean <= max, and the standard
    deviation, when defined, is non-negative. *)
Theorem mean_between_min_max : forall attr df,
  numeric_values (attr_values attr df) ->
  num_values (attr_values attr df) <> [] ->
  exists mn mx a,
    st_min (aggregate attr df) = Some (VNum mn) /\
    st_max (aggregate attr df) = Some (VNum mx) /\
    st_avg (aggregate attr df) = Some a /\
    mn <= a /\ a <= mx /\
    (forall s, st_stddev (aggregate attr df) = Some s -> (0 <= s)%R).
Proof.
  intros attr df Hnum Hne.
  set (vs := attr_values attr df) in *.
  destruct (min_fold_none vs Hnum Hne) as (mn & Emn & Hmn).
  destruct (max_fold_none vs Hnum Hne) as (mx & Emx & Hmx).
  destruct (avg_of_values vs Hne) as (a & Ea & Ha).
  assert (Hpos : 0 < Q_of_nat (List.length (num_values vs))).
  { apply Q_of_nat_pos. destruct (num_values vs); [contradiction Hne; reflexivity|].
    simpl. lia. }
  exists mn, mx, a. unfold aggregate. fold vs. cbn [st_min st_max st_avg st_stddev].
  split; [exact Emn|]. split; [exact Emx|]. split; [exact Ea|].
  split; [|split].
  - rewrite Ha. apply Qle_shift_div_l; [exact Hpos|]. apply sumQ_lower, Hmn.
  - rewrite Ha. apply Qle_shift_div_r; [exact Hpos|]. apply sumQ_upper, Hmx.
  - intros s Hs. unfold stddev_eval in Hs.
    destruct (m_n _ =? 0)%nat; [discriminate|].
    destruct (m_n _ =? 1)%nat; [discriminate|].
    injection Hs as <-. apply sqrt_pos.
Qed.

Lemma mean_between_min_max_witness :
  numeric_values (attr_values "amt" (rows scenario_table)) /\
  exists mn mx a,
    st_min (aggregate "amt" (rows scenario_table)) = Some (VNum mn) /\
    st_max (aggregate "amt" (rows scenario_table)) = Some (VNum mx) /\
    st_avg (aggregate "amt" (rows scenario_table)) = Some a /\
    mn <= a /\ a <= mx /\
    (forall s, st_stddev (aggregate "amt" (rows scenario_table)) = Some s -> (0 <= s)%R).
Proof.
  assert (H : numeric_values (attr_values "amt" (rows scenario_table))).
  { intros v Hv. simpl in Hv.
    destruct Hv as [Hv|[Hv|[Hv|[]]]]; injection Hv as <-; eexists; reflexivity. }
  split; [exact H|].
  apply (mean_between_min_max "amt" (rows scenario_table) H).
  simpl. discriminate.
Defined.

(** C8: the program averages doubles.  Three copies of the double nearest
    0.1 have a double mean strictly above their maximum. *)
Lemma double_mean_above_max :
  PrimFloat.leb (Double.avg [Double.tenth; Double.tenth; Double.tenth])
                (Double.max [Double.tenth; Double.tenth; Double.tenth]) = false.
Proof. vm_compute. reflexivity. Qed.

(** ** Null attribute values and group counts *)

Lemma aggregate_skip_null : forall attr l1 r l2,
  lookup attr r = None -> aggregate attr (l1 ++ r :: l2) = aggregate attr (l1 ++ l2).
Proof.
  intros attr l1 r l2 Hr. unfold aggregate, attr_values.
  rewrite !map_app. cbn [map]. rewrite Hr, !fold_left_app. reflexivity.
Qed.


Lemma group_total_cons : forall k rs gs,
  group_total ((k, rs) :: gs) = (List.length rs + group_total gs)%nat.
Proof. reflexivity. Qed.

Lemma insert_group_total : forall k r gs,
  group_total (insert_group k r gs) = S (group_total gs).
Proof.
  intros k r gs. induction gs as [|[k' rs] gs IH]; [reflexivity|].
  cbn [insert_group]. destruct (key_compare k k').
  - rewrite !group_total_cons, length_app. simpl. lia.
  - rewrite !group_total_cons. simpl. lia.
  - rewrite !group_total_cons, IH. lia.
Qed.

Lemma group_rows_total : forall col df,
  group_total (group_rows col df) = List.length df.
Proof.
  intros col df. unfold group_rows.
  assert (H : forall gs, group_total (fold_left (fun gs r => insert_group (lookup col r) r gs) df gs)
                         = (group_total gs + List.length df)%nat).
  { induction df as [|r df IH]; intros gs; simpl; [lia|].
    rewrite IH, insert_group_total. lia. }
  rewrite H. reflexivity.
Qed.

Lemma grouped_stats_counts : forall col attr df,
  list_sum (map (fun g => st_count (snd g)) (grouped_stats col attr df)) = List.length df.
Proof.
  intros col attr df. unfold grouped_stats. rewrite map_map.
  rewrite <- (group_rows_total col df). unfold group_total. f_equal.
  apply map_ext. intros [k rs]. reflexivity.
Qed.

Lemma apply_filters_with_mode : forall t a m,
  apply_filters t (with_mode a m) = apply_filters t a.
Proof. reflexivity. Qed.

(** ** The order on group keys *)

Lemma string_compare_lt_trans : forall s1 s2 s3,
  String.compare s1 s2 = Lt -> String.compare s2 s3 = Lt -> String.compare s1 s3 = Lt.
Proof.
  induction s1 as [|c1 s1 IH]; intros [|c2 s2] [|c3 s3] H1 H2;
    simpl in *; try discriminate; try reflexivity.
  unfold Ascii.compare in *.
  destruct (N.compare_spec (N_of_ascii c1) (N_of_ascii c2)) as [E12|L12|G12];
    try discriminate;
  destruct (N.compare_spec (N_of_ascii c2) (N_of_ascii c3)) as [E23|L23|G23];
    try discriminate.
  - rewrite E12, E23, N.compare_refl. apply (IH s2 s3); assumption.
  - assert (E : N.compare (N_of_ascii c1) (N_of_ascii c3) = Lt)
      by (apply N.compare_lt_iff; lia). rewrite E. reflexivity.
  - assert (E : N.compare (N_of_ascii c1) (N_of_ascii c3) = Lt)
      by (apply N.compare_lt_iff; lia). rewrite E. reflexivity.
  - assert (E : N.compare (N_of_ascii c1) (N_of_ascii c3) = Lt)
      by (apply N.compare_lt_iff; lia). rewrite E. reflexivity.
Qed.

Lemma string_compare_refl : forall s, String.compare s s = Eq.
Proof.
  induction s as [|c s IH]; [reflexivity|]. simpl.
  unfold Ascii.compare. rewrite N.compare_refl. exact IH.
Qed.

Lemma key_compare_antisym : forall x y, key_compare y x = CompOpp (key_compare x y).
Proof.
  intros [[p|s]|] [[q|u]|]; simpl; try reflexivity.
  - rewrite <- Qcompare_antisym. destruct (p ?= q)%Q; reflexivity.
  - apply String.compare_antisym.
Qed.

Lemma key_compare_refl : forall x, key_compare x x = Eq.
Proof.
  intros [[p|s]|]; simpl; [apply Qeq_alt; reflexivity | apply string_compare_refl | reflexivity].
Qed.

Lemma key_compare_lt_trans : forall x y z,
  key_compare x y = Lt -> key_compare y z = Lt -> key_compare x z = Lt.
Proof.
  intros [[p|s]|] [[q|u]|] [[w|v]|]; simpl; intros H1 H2; try discriminate; try reflexivity.
  - apply Qlt_alt in H1, H2. apply Qlt_alt. apply Qlt_trans with q; assumption.
  - apply (string_compare_lt_trans s u v); assumption.
Qed.

Lemma key_compare_eq_trans : forall x y z,
  key_compare x y = Eq -> key_compare y z = Eq -> key_compare x z = Eq.
Proof.
  intros [[p|s]|] [[q|u]|] [[w|v]|]; simpl; intros H1 H2; try discriminate; try reflexivity.
  - apply Qeq_alt in H1, H2. apply Qeq_alt. rewrite H1. exact H2.
  - apply String.compare_eq_iff in H1, H2. subst. apply string_compare_refl.
Qed.

Lemma key_compare_eq_sym : forall x y, key_compare x y = Eq -> key_compare y x = Eq.
Proof. intros x y H. rewrite key_compare_antisym, H. reflexivity. Qed.

Lemma key_eqb_true : forall x y, key_eqb x y = true <-> key_compare x y = Eq.
Proof.
  intros x y. unfold key_eqb. destruct (key_compare x y); split; congruence.
Qed.

Lemma key_eqb_false : forall x y, key_eqb x y = false <-> key_compare x y <> Eq.
Proof.
  intros x y. unfold key_eqb. destruct (key_compare x y); split; congruence.
Qed.

(** ** Invariants of [insert_group] and [group_rows] *)

Lemma insert_group_keys : forall k r gs x,
  In x (map fst (insert_group k r gs)) -> x = k \/ In x (map fst gs).
Proof.
  intros k r gs. induction gs as [|[k' rs] gs' IH]; intros x Hx; cbn [insert_group] in Hx.
  - destruct Hx as [<-|[]]. left; reflexivity.
  - destruct (key_compare k k'); simpl in Hx |- *.
    + exact (or_intror Hx).
    + destruct Hx as [<-|Hx]; [left; reflexivity | right; exact Hx].
    + destruct Hx as [<-|Hx]; [right; left; reflexivity|].
      destruct (IH x Hx) as [E|E]; [left; exact E | right; right; exact E].
Qed.

Lemma insert_group_sorted : forall k r gs,
  StronglySorted (fun x y => key_compare x y = Lt) (map fst gs) ->
  StronglySorted (fun x y => key_compare x y = Lt) (map fst (insert_group k r gs)).
Proof.
  intros k r gs. induction gs as [|[k' rs] gs' IH]; intros Hs; cbn [insert_group].
  - constructor; constructor.
  - simpl in Hs. inversion Hs as [|? ? Hs' Hf]; subst.
    destruct (key_compare k k') eqn:E; simpl.
    + exact Hs.
    + constructor; [exact Hs|]. constructor; [exact E|].
      eapply Forall_impl; [|exact Hf]. intros y Hy.
      exact (key_compare_lt_trans _ _ _ E Hy).
    + constructor; [exact (IH Hs')|].
      apply Forall_forall. intros y Hy.
      destruct (insert_group_keys _ _ _ _ Hy) as [->|Hy'].
      * rewrite key_compare_antisym, E. reflexivity.
      * exact (proj1 (Forall_forall _ _) Hf y Hy').
Qed.

Lemma group_rows_sorted : forall col df,
  StronglySorted (fun x y => key_compare x y = Lt) (map fst (group_rows col df)).
Proof.
  intros col df. unfold group_rows.
  assert (H : forall gs, StronglySorted (fun x y => key_compare x y = Lt) (map fst gs) ->
    StronglySorted (fun x y => key_compare x y = Lt)
      (map fst (fold_left (fun gs r => insert_group (lookup col r) r gs) df gs))).
  { induction df as [|r df IH]; intros gs Hs; [exact Hs|].
    simpl. apply IH. apply insert_group_sorted. exact Hs. }
  apply H. constructor.
Qed.

(** Where a group of [insert_group k r gs] comes from, for sorted [gs]. *)
Lemma insert_group_cases : forall k r gs k2 rs2,
  StronglySorted (fun x y => key_compare x y = Lt) (map fst gs) ->
  In (k2, rs2) (insert_group k r gs) ->
  (In (k2, rs2) gs /\ key_eqb k k2 = false) \/
  (exists rs, In (k2, rs) gs /\ key_eqb k k2 = true /\ rs2 = (rs ++ [r])%list) \/
  (k2 = k /\ rs2 = [r] /\ forall k3 rs3, In (k3, rs3) gs -> key_eqb k k3 = false).
Proof.
  intros k r gs. induction gs as [|[k' rs] gs' IH]; intros k2 rs2 Hs Hin;
    cbn [insert_group] in Hin.
  - destruct Hin as [E|[]]. injection E as <- <-. right; right.
    split; [reflexivity|]. split; [reflexivity|]. intros ? ? [].
  - simpl in Hs. inversion Hs as [|? ? Hs' Hf]; subst.
    assert (Hlt : forall k3 rs3, In (k3, rs3) gs' -> key_compare k' k3 = Lt).
    { intros k3 rs3 H3. apply (proj1 (Forall_forall _ _) Hf).
      apply in_map_iff. exists (k3, rs3). split; [reflexivity | exact H3]. }
    destruct (key_compare k k') eqn:E.
    + destruct Hin as [E2|Hin].
      * injection E2 as <- <-. right; left. exists rs.
        split; [left; reflexivity|]. split; [apply key_eqb_true; exact E | reflexivity].
      * left. split; [right; exact Hin|]. apply key_eqb_false. intros E3.
        pose proof (key_compare_eq_trans _ _ _ (key_compare_eq_sym _ _ E) E3) as E4.
        rewrite (Hlt _ _ Hin) in E4. discriminate E4.
    + destruct Hin as [E2|Hin].
      * injection E2 as <- <-. right; right.
        split; [reflexivity|]. split; [reflexivity|].
        intros k3 rs3 [E3|H3].
        -- injection E3 as <- <-. apply key_eqb_false. rewrite E. discriminate.
        -- apply key_eqb_false. rewrite (key_compare_lt_trans _ _ _ E (Hlt _ _ H3)).
           discriminate.
      * left. split; [exact Hin|]. destruct Hin as [E3|H3].
        -- injection E3 as <- <-. apply key_eqb_false. rewrite E. discriminate.
        -- apply key_eqb_false. rewrite (key_compare_lt_trans _ _ _ E (Hlt _ _ H3)).
           discriminate.
    + destruct Hin as [E2|Hin].
      * injection E2 as <- <-. left. split; [left; reflexivity|].
        apply key_eqb_false. rewrite E. discriminate.
      * destruct (IH k2 rs2 Hs' Hin) as [[H1 H2]|[[rs0 [H1 [H2 H3]]]|[H1 [H2 H3]]]].
        -- left. split; [right; exact H1 | exact H2].
        -- right; left. exists rs0. split; [right; exact H1|]. split; assumption.
        -- right; right. split; [exact H1|]. split; [exact H2|].
           intros k3 rs3 [E3|H4].
           ++ injection E3 as <- <-. apply key_eqb_false. rewrite E. discriminate.
           ++ exact (H3 _ _ H4).
Qed.

Lemma insert_group_keeps : forall k r gs k2 rs2,
  In (k2, rs2) gs -> exists rs3, In (k2, rs3) (insert_group k r gs).
Proof.
  intros k r gs. induction gs as [|[k' rs] gs' IH]; intros k2 rs2 Hin; [destruct Hin|].
  cbn [insert_group]. destruct (key_compare k k').
  - destruct Hin as [E|Hin].
    + injection E as <- <-. exists (rs ++ [r])%list. left; reflexivity.
    + exists rs2. right; exact Hin.
  - exists rs2. right; exact Hin.
  - destruct Hin as [E|Hin].
    + injection E as <- <-. exists rs. left; reflexivity.
    + destruct (IH _ _ Hin) as [rs3 H3]. exists rs3. right; exact H3.
Qed.

Lemma insert_group_hit : forall k r gs,
  exists k2 rs2, In (k2, rs2) (insert_group k r gs) /\ key_eqb k k2 = true.
Proof.
  intros k r gs. induction gs as [|[k' rs] gs' IH]; cbn [insert_group].
  - exists k, [r]. split; [left; reflexivity | apply key_eqb_true, key_compare_refl].
  - destruct (key_compare k k') eqn:E.
    + exists k', (rs ++ [r])%list. split; [left; reflexivity | apply key_eqb_true; exact E].
    + exists k, [r]. split; [left; reflexivity | apply key_eqb_true, key_compare_refl].
    + destruct IH as (k2 & rs2 & H1 & H2). exists k2, rs2. split; [right; exact H1 | exact H2].
Qed.

Lemma filter_all_false : forall {A} (f : A -> bool) l,
  (forall y, In y l -> f y = false) -> filter f l = [].
Proof.
  intros A f l H. induction l as [|y l IH]; [reflexivity|].
  simpl. rewrite (H y (or_introl eq_refl)). apply IH. intros z Hz. apply H. right; exact Hz.
Qed.

Lemma group_rows_inv_step : forall col p gs r,
  groups_inv col p gs ->
  groups_inv col (p ++ [r])%list (insert_group (lookup col r) r gs).
Proof.
  intros col p gs r [Hs [Hb Hc]]. split; [|split].
  - apply insert_group_sorted. exact Hs.
  - intros k2 rs2 Hin. rewrite filter_app. simpl.
    destruct (insert_group_cases _ _ _ _ _ Hs Hin)
      as [[H1 H2]|[[rs0 [H1 [H2 H3]]]|[H1 [H2 H3]]]].
    + destruct (Hb _ _ H1) as [H4 H5]. rewrite H2, app_nil_r.
      split; [exact H4 | exact H5].
    + destruct (Hb _ _ H1) as [H4 H5]. rewrite H2, H3, H4.
      split; [reflexivity | intros E; apply app_eq_nil in E; destruct E as [_ E]; discriminate E].
    + subst k2 rs2. rewrite (proj2 (key_eqb_true _ _) (key_compare_refl _)).
      rewrite filter_all_false; [split; [reflexivity | discriminate]|].
      intros y Hy. destruct (Hc y Hy) as (k3 & rs3 & H4 & H5).
      apply key_eqb_false. intros E.
      pose proof (H3 _ _ H4) as H6. apply key_eqb_false in H6. apply H6.
      apply key_compare_eq_trans with (lookup col y);
        [apply key_compare_eq_sym; exact E | apply key_eqb_true; exact H5].
  - intros y Hy. apply in_app_or in Hy. destruct Hy as [Hy|[<-|[]]].
    + destruct (Hc y Hy) as (k3 & rs3 & H4 & H5).
      destruct (insert_group_keeps (lookup col r) r _ _ _ H4) as [rs4 H6].
      exists k3, rs4. split; assumption.
    + apply insert_group_hit.
Qed.

Lemma group_rows_inv : forall col df, groups_inv col df (group_rows col df).
Proof.
  intros col df. unfold group_rows.
  assert (H : forall p gs, groups_inv col p gs ->
    groups_inv col (p ++ df)%list (fold_left (fun gs r => insert_group (lookup col r) r gs) df gs)).
  { induction df as [|r df IH]; intros p gs Hi; simpl.
    - rewrite app_nil_r. exact Hi.
    - replace (p ++ r :: df)%list with ((p ++ [r]) ++ df)%list
        by (rewrite <- app_assoc; reflexivity).
      apply IH. apply group_rows_inv_step. exact Hi. }
  apply (H []). split; [constructor|]. split.
  - intros ? ? [].
  - intros ? [].
Qed.

Lemma eq_ignore_case_same : forall n c x,
  eq_ignore_case n c = true -> eq_ignore_case n x = eq_ignore_case c x.
Proof.
  intros n c x H. unfold eq_ignore_case in *. apply String.eqb_eq in H. rewrite H.
  reflexivity.
Qed.

Lemma filter_nil_existsb : forall {A} (f : A -> bool) l,
  existsb f l = false -> filter f l = [].
Proof.
  intros A f l. induction l as [|x l IH]; [reflexivity|]. simpl.
  destruct (f x); [discriminate|]. exact IH.
Qed.

Lemma filter_cons_existsb : forall {A} (f : A -> bool) l,
  existsb f l = true -> exists x l', filter f l = x :: l'.
Proof.
  intros A f l. induction l as [|x l IH]; [discriminate|]. simpl.
  destruct (f x); [intros _; exists x, (filter f l); reflexivity|]. exact IH.
Qed.

(** [.orderBy(group_by)] over the grouped columns fails exactly when the
    grouping column is named like one of the aggregate aliases. *)
Lemma order_by_resolve : forall g cols c,
  resolve g cols = Some c ->
  (resolve g (c :: agg_aliases) = None <-> existsb (eq_ignore_case c) agg_aliases = true).
Proof.
  intros g cols c H. unfold resolve in *.
  destruct (is_star g); [discriminate H|].
  destruct (parse_attribute_name g) as [[|n [|m ns]]|]; try discriminate H.
  destruct (filter (eq_ignore_case n) cols) as [|c' [|c'' cs]] eqn:F; try discriminate H.
  injection H as <-.
  assert (Hn : eq_ignore_case n c' = true).
  { assert (Hin : In c' (filter (eq_ignore_case n) cols)) by (rewrite F; left; reflexivity).
    apply filter_In in Hin. exact (proj2 Hin). }
  cbn [filter]. rewrite Hn.
  rewrite (filter_ext _ _ (fun x => eq_ignore_case_same n c' x Hn)).
  destruct (existsb (eq_ignore_case c') agg_aliases) eqn:E.
  - destruct (filter_cons_existsb _ _ E) as (x & l' & ->). split; reflexivity.
  - rewrite (filter_nil_existsb _ _ E). split; discriminate.
Qed.

(** A filter-mode run that succeeds: Spark resolved the filters' columns;
    either no row passed, nothing is reported and nothing written, or the
    attribute resolved too and the statistics of the filtered rows are
    reported and the rows written. *)
Lemma main_filter_ok : forall fs t a r fs',
  main fs t a = (Ok r, fs') -> mode a = ModeFilter ->
  in_columns (attribute a) t = true /\ refs_resolve t a = true /\
  ((apply_filters t a = [] /\ r = RFilter 0 None /\ fs' = fs) \/
   (apply_filters t a <> [] /\ resolves (attribute a) t = true /\
    r = RFilter (List.length (apply_filters t a))
                (Some (aggregate (col_of t (attribute a)) (apply_filters t a))) /\
    fs' = write_if fs (output a) (OutRows (apply_filters t a)))).
Proof.
  intros fs t a r fs' H Hm. unfold main in H.
  destruct (in_columns (attribute a) t) eqn:Ea; [|discriminate H]. simpl in H.
  rewrite Hm in H. unfold mode_filter in H.
  destruct (refs_resolve t a) eqn:Er; [|discriminate H]. simpl in H.
  split; [reflexivity|]. split; [reflexivity|].
  destruct (List.length (apply_filters t a) =? 0)%nat eqn:E0.
  - injection H as <- <-. left. apply Nat.eqb_eq, length_zero_iff_nil in E0.
    split; [exact E0|]. split; reflexivity.
  - destruct (resolves (attribute a) t) eqn:Eat; [|discriminate H]. simpl in H.
    injection H as <- <-. right. split.
    + intros E. rewrite E in E0. discriminate E0.
    + split; [reflexivity|]. split; reflexivity.
Qed.

(** A group-mode run that succeeds: Spark resolved the filters' columns,
    [group_by] (to [c]), the attribute and the [orderBy]; it reports the
    groups of the filtered rows by [c] and writes them. *)
Lemma main_group_ok : forall fs t a gs fs',
  main fs t a = (Ok (RGroup gs), fs') ->
  exists g c, in_columns (attribute a) t = true /\ mode a = ModeGroup /\
            group_by a = Some g /\ truthy (Some g) = true /\ refs_resolve t a = true /\
            resolve g (df_columns t) = Some c /\ resolves (attribute a) t = true /\
            existsb (eq_ignore_case c) agg_aliases = false /\
            gs = grouped_stats c (col_of t (attribute a)) (apply_filters t a) /\
            fs' = write_if fs (output a) (OutGroups gs).
Proof.
  intros fs t a gs fs' H. unfold main in H.
  destruct (in_columns (attribute a) t) eqn:Ea; [|discriminate H]. simpl in H.
  destruct (mode a) eqn:Em.
  - unfold mode_filter in H. destruct (refs_resolve t a); [|discriminate H]. simpl in H.
    destruct (List.length (apply_filters t a) =? 0)%nat; [discriminate H|].
    destruct (resolves (attribute a) t); discriminate H.
  - unfold mode_group in H. destruct (group_by a) as [g|] eqn:Eg; [|discriminate H].
    destruct (truthy (Some g)) eqn:Et; [|discriminate H]. simpl in H.
    destruct (refs_resolve t a) eqn:Er; [|discriminate H]. simpl in H.
    destruct (resolve g (df_columns t)) as [c|] eqn:Ec; [|discriminate H].
    destruct (resolves (attribute a) t) eqn:Eat; [|discriminate H]. simpl in H.
    destruct (resolve g (c :: agg_aliases)) as [c'|] eqn:Eo; [|discriminate H].
    injection H as <- <-. exists g, c. do 7 (split; [reflexivity || assumption|]).
    split; [|split; reflexivity].
    destruct (existsb (eq_ignore_case c) agg_aliases) eqn:Ex; [|reflexivity].
    apply (order_by_resolve _ _ _ Ec) in Ex. rewrite Ex in Eo. discriminate Eo.
Qed.

(** The statistics a successful run reports each come from one partition of
    the filtered rows: all of them in filter mode, in group mode those whose
    group column equals the group's key.  The count is its size, the rest is
    [aggregate] of the resolved attribute. *)
Lemma report_stats_partition : forall fs t a r fs' s,
  main fs t a = (Ok r, fs') -> In s (report_stats r) ->
  exists rs,
    ((mode a = ModeFilter /\ rs = apply_filters t a) \/
     (mode a = ModeGroup /\ exists g c k gs,
        r = RGroup gs /\ In (k, s) gs /\ group_by a = Some g /\
        resolve g (df_columns t) = Some c /\
        rs = filter (fun x => key_eqb (lookup c x) k) (apply_filters t a))) /\
    st_count s = List.length rs /\ st_agg s = aggregate (col_of t (attribute a)) rs.
Proof.
  intros fs t a r fs' s H Hs. destruct (mode a) eqn:Em.
  - destruct (main_filter_ok _ _ _ _ _ H Em) as (_ & _ & [(_ & -> & _)|(_ & _ & -> & _)]).
    + destruct Hs.
    + destruct Hs as [<-|[]]. exists (apply_filters t a).
      split; [left; split; reflexivity|]. split; reflexivity.
  - destruct r as [c0 o|gs].
    + unfold main in H. destruct (in_columns (attribute a) t); [|discriminate H].
      simpl in H. rewrite Em in H. unfold mode_group in H.
      destruct (group_by a) as [g|]; [|discriminate H].
      destruct (truthy (Some g)); [|discriminate H]. simpl in H.
      destruct (refs_resolve t a); [|discriminate H]. simpl in H.
      destruct (resolve g (df_columns t)) as [c|]; [|discriminate H].
      destruct (resolves (attribute a) t); [|discriminate H]. simpl in H.
      destruct (resolve g (c :: agg_aliases)); discriminate H.
    + destruct (main_group_ok _ _ _ _ _ H) as (g & c & _ & _ & Eg & _ & _ & Ec & _ & _ & Egs & _).
      cbn [report_stats] in Hs. apply in_map_iff in Hs. destruct Hs as ([k s'] & Es & Hin).
      simpl in Es. subst s'.
      pose proof Hin as Hin'. rewrite Egs in Hin'.
      unfold grouped_stats in Hin'. apply in_map_iff in Hin'.
      destruct Hin' as ([k' rs] & E & Hin'). injection E as <- <-.
      destruct (group_rows_inv c (apply_filters t a)) as [_ [Hb _]].
      destruct (Hb _ _ Hin') as [Hrs _].
      exists rs. split; [right; split; [reflexivity|] |].
      * exists g, c, k', gs. split; [reflexivity|]. split; [exact Hin|].
        split; [exact Eg|]. split; [exact Ec | exact Hrs].
      * split; reflexivity.
Qed.

Lemma main_store_shape : forall fs t a,
  snd (main fs t a) = fs \/
  (exists d, snd (main fs t a) = write_if fs (output a) d /\
             exists r, fst (main fs t a) = Ok r).
Proof.
  intros fs t a. unfold main.
  destruct (in_columns (attribute a) t); simpl; [|left; reflexivity].
  destruct (mode a).
  - unfold mode_filter. destruct (refs_resolve t a); simpl; [|left; reflexivity].
    destruct (List.length (apply_filters t a) =? 0)%nat; [left; reflexivity|].
    destruct (resolves (attribute a) t); simpl; [|left; reflexivity].
    right. eexists. split; [reflexivity | eexists; reflexivity].
  - unfold mode_group. destruct (group_by a) as [g|]; [|left; reflexivity].
    destruct (negb (truthy (Some g))); [left; reflexivity|].
    destruct (refs_resolve t a); simpl; [|left; reflexivity].
    destruct (resolve g (df_columns t)) as [c|]; [|left; reflexivity].
    destruct (resolves (attribute a) t); simpl; [|left; reflexivity].
    destruct (resolve g (c :: agg_aliases)); [|left; reflexivity].
    right. eexists. split; [reflexivity | eexists; reflexivity].
Qed.

Lemma min_step_none_iff : forall acc v,
  min_step acc v = None <-> acc = None /\ v = None.
Proof.
  intros [x|] [y|]; simpl; split; try (intros [? ?]; discriminate); try discriminate;
    try (destruct (value_compare y x); discriminate); auto.
Qed.

Lemma max_step_none_iff : forall acc v,
  max_step acc v = None <-> acc = None /\ v = None.
Proof.
  intros [x|] [y|]; simpl; split; try (intros [? ?]; discriminate); try discriminate;
    try (destruct (value_compare y x); discriminate); auto.
Qed.

Lemma fold_none_iff : forall (f : option value -> option value -> option value),
  (forall acc v, f acc v = None <-> acc = None /\ v = None) ->
  forall vs acc, fold_left f vs acc = None <-> acc = None /\ (forall v, ~ In (Some v) vs).
Proof.
  intros f Hf. induction vs as [|w vs IH]; intros acc; simpl.
  - split; [intros H; split; [exact H | intros v []] | intros [H _]; exact H].
  - rewrite IH, Hf. split.
    + intros [[Ha Hw] Hvs]. split; [exact Ha|]. intros v [Hv|Hv].
      * rewrite Hv in Hw. discriminate Hw.
      * exact (Hvs v Hv).
    + intros [Ha Hvs]. split; [split; [exact Ha|]|].
      * destruct w as [x|]; [|reflexivity]. exfalso. apply (Hvs x). left. reflexivity.
      * intros v Hv. apply (Hvs v). right. exact Hv.
Qed.

Lemma avg_none_iff : forall vs,
  avg_eval (fold_left avg_step vs (0%Q, 0%nat)) = None <-> num_values vs = [].
Proof.
  intros vs. destruct (fold_avg_values vs 0 0) as [_ H2].
  destruct (fold_left avg_step vs (0%Q, 0%nat)) as [s c]. simpl in H2. subst c.
  unfold avg_eval. destruct (num_values vs); simpl; split; try discriminate; reflexivity.
Qed.

Lemma stddev_none_iff : forall vs,
  stddev_eval (fold_left moment_step vs moments0) = None <->
  (List.length (num_values vs) < 2)%nat.
Proof.
  intros vs. rewrite fold_moment_values.
  destruct (stddev_buffer (num_values vs)) as (Hn & _ & _).
  unfold stddev_eval. rewrite Hn.
  destruct (List.length (num_values vs)) as [|[|k]]; simpl;
    split; try discriminate; try lia; reflexivity.
Qed.

Lemma in_filter_true : forall p df r,
  In r (spark_filter p df) -> p r = Some true.
Proof.
  intros p df r H. unfold spark_filter in H. apply filter_In in H as [_ H].
  destruct (p r) as [[|]|]; [reflexivity | discriminate | discriminate].
Qed.


Lemma filter_compose : forall (f g : row -> bool) l,
  filter g (filter f l) = filter (fun x => f x && g x) l.
Proof.
  intros f g l. induction l as [|x l IH]; [reflexivity|]. simpl.
  destruct (f x); simpl; [destruct (g x)|]; rewrite ?IH; reflexivity.
Qed.

Lemma filter_true_id : forall (l : list row), filter (fun _ => true) l = l.
Proof. induction l as [|x l IH]; simpl; [|rewrite IH]; reflexivity. Qed.

Lemma apply_filters_as_filter : forall t a,
  apply_filters t a = filter (passes t a) (rows t).
Proof.
  intros t a. unfold apply_filters, passes, spark_filter.
  rewrite <- (filter_true_id (rows t)).
  destruct (in_columns time_col t);
    [destruct (start a) as [s|]; [destruct (truthy (Some s))|];
     destruct (end_ a) as [e|]; [destruct (truthy (Some e))| | destruct (truthy (Some e))| |
                                 destruct (truthy (Some e))|] |];
    destruct (min_value a); destruct (max_value a);
    rewrite ?filter_compose; apply filter_ext; intros r; unfold holds;
    repeat match goal with
           |- context [match ?x with Some _ => _ | None => _ end] => destruct x as [[|]|]
           end;
    reflexivity.
Qed.

(** ** C1 *)



(** ** C2 *)

(** C2: in scenario 3 the group "B" has count 1 and a null stddev. *)
Lemma single_value_group_null_stddev :
  match fst (main empty_store scenario_table
                  (mk_args ModeGroup "amt" None None None None (Some "zone") None)) with
  | Ok r => exists s, In s (report_stats r) /\ st_count s = 1%nat /\
                      st_stddev (st_agg s) = None
  | Err _ => False
  end.
Proof.
  simpl. eexists. split; [right; left; reflexivity|]. split; reflexivity.
Qed.

(** C2 (amended): each reported Stats value is the count and the aggregate
    of its own partition: all the filtered rows in filter mode, in group
    mode the filtered rows whose group column equals the group's key.  Its
    min and max are null exactly when no attribute value of the partition is
    non-null, its mean exactly when none casts to a number, its stddev
    exactly when fewer than two do. *)
Theorem stats_null_fields : forall fs t a r fs' s,
  main fs t a = (Ok r, fs') -> In s (report_stats r) ->
  exists rs,
    ((mode a = ModeFilter /\ rs = apply_filters t a) \/
     (mode a = ModeGroup /\ exists g c k gs,
        r = RGroup gs /\ In (k, s) gs /\ group_by a = Some g /\
        resolve g (df_columns t) = Some c /\
        rs = filter (fun x => key_eqb (lookup c x) k) (apply_filters t a))) /\
    st_count s = List.length rs /\ st_agg s = aggregate (col_of t (attribute a)) rs /\
    let vs := attr_values (col_of t (attribute a)) rs in
    (st_min (st_agg s) = None <-> forall v, ~ In (Some v) vs) /\
    (st_max (st_agg s) = None <-> forall v, ~ In (Some v) vs) /\
    (st_avg (st_agg s) = None <-> num_values vs = []) /\
    (st_stddev (st_agg s) = None <-> (List.length (num_values vs) < 2)%nat).
Proof.
  intros fs t a r fs' s H Hs.
  destruct (report_stats_partition fs t a r fs' s H Hs) as (rs & Hp & Hc & Ha).
  exists rs. split; [exact Hp|]. split; [exact Hc|]. split; [exact Ha|].
  cbv zeta. rewrite Ha. unfold aggregate. cbn [st_min st_max st_avg st_stddev].
  split; [|split; [|split]].
  - rewrite (fold_none_iff min_step min_step_none_iff). intuition.
  - rewrite (fold_none_iff max_step max_step_none_iff). intuition.
  - apply avg_none_iff.
  - apply stddev_none_iff.
Qed.

Lemma stats_null_fields_witness :
  let r := RFilter 3 (Some (aggregate "amt" (rows scenario_table))) in
  let s := mk_stats 3 (aggregate "amt" (rows scenario_table)) in
  main empty_store scenario_table (query ModeFilter "amt") = (Ok r, empty_store) /\
  In s (report_stats r) /\
  exists rs,
    ((mode (query ModeFilter "amt") = ModeFilter /\ rs = apply_filters scenario_table (query ModeFilter "amt")) \/
     (mode (query ModeFilter "amt") = ModeGroup /\ exists g c k gs,
        r = RGroup gs /\ In (k, s) gs /\ group_by (query ModeFilter "amt") = Some g /\
        resolve g (df_columns scenario_table) = Some c /\
        rs = filter (fun x => key_eqb (lookup c x) k) (apply_filters scenario_table (query ModeFilter "amt")))) /\
    st_count s = List.length rs /\ st_agg s = aggregate (col_of scenario_table (attribute (query ModeFilter "amt"))) rs /\
    let vs := attr_values (col_of scenario_table (attribute (query ModeFilter "amt"))) rs in
    (st_min (st_agg s) = None <-> forall v, ~ In (Some v) vs) /\
    (st_max (st_agg s) = None <-> forall v, ~ In (Some v) vs) /\
    (st_avg (st_agg s) = None <-> num_values vs = []) /\
    (st_stddev (st_agg s) = None <-> (List.length (num_values vs) < 2)%nat).
Proof.
  intros r s.
  assert (H1 : main empty_store scenario_table (query ModeFilter "amt") = (Ok r, empty_store))
    by reflexivity.
  assert (H2 : In s (report_stats r)) by (left; reflexivity).
  split; [exact H1|]. split; [exact H2|].
  exact (stats_null_fields _ _ _ _ _ _ H1 H2).
Defined.

(** ** C3 *)

(** C3: the only row of [null_amt_table] has a null [amt], yet its group
    reports count 1 (with every other field null). *)
Lemma null_row_counted_in_group :
  fst (main empty_store null_amt_table
            (mk_args ModeGroup "amt" None None None None (Some "zone") None)) =
  Ok (RGroup [(Some (VStr "A"), mk_stats 1 (mk_agg None None None None))]).
Proof. reflexivity. Qed.

(** C3 (amended): a row whose attribute is null changes none of min, max,
    mean and stddev of its partition; the counts count rows, so in group
    mode the group counts sum to the number of filtered rows, which is the
    count filter mode reports for the same arguments. *)
Theorem null_rows_in_counts_only :
  (forall attr l1 r l2, lookup attr r = None ->
     aggregate attr (l1 ++ r :: l2) = aggregate attr (l1 ++ l2)) /\
  (forall fs t a gs fs', main fs t a = (Ok (RGroup gs), fs') ->
     report_count (RGroup gs) = List.length (apply_filters t a) /\
     exists r fs'', main fs t (with_mode a ModeFilter) = (Ok r, fs'') /\
                    report_count r = report_count (RGroup gs)).
Proof.
  split.
  - exact aggregate_skip_null.
  - intros fs t a gs fs' H.
    destruct (main_group_ok fs t a gs fs' H)
      as (g & c & Ea & _ & _ & _ & Er & _ & Eat & _ & -> & _).
    assert (Hc : report_count (RGroup (grouped_stats c (col_of t (attribute a))
                                                     (apply_filters t a)))
                 = List.length (apply_filters t a))
      by apply grouped_stats_counts.
    split; [exact Hc|]. rewrite Hc.
    unfold main. cbn [attribute with_mode mode]. rewrite Ea. simpl.
    unfold mode_filter. rewrite apply_filters_with_mode.
    change (refs_resolve t (with_mode a ModeFilter)) with (refs_resolve t a). rewrite Er.
    simpl. destruct (List.length (apply_filters t a) =? 0)%nat eqn:E0.
    + apply Nat.eqb_eq in E0. rewrite E0. eexists; eexists; split; reflexivity.
    + change (resolves (attribute (with_mode a ModeFilter)) t) with (resolves (attribute a) t).
      rewrite Eat. eexists; eexists; split; reflexivity.
Qed.

(** ** C4 *)


(** C4: [--start not-a-date] raises no error, whether the pickup column is
    absent (the bound is ignored) or present (the row is compared with the
    raw string and dropped). *)
Lemma unparsable_start_no_error :
  fst (main empty_store scenario_table
            (mk_args ModeFilter "amt" None None (Some "not-a-date") None None None))
  = Ok (RFilter 3 (Some (aggregate "amt" (rows scenario_table)))) /\
  fst (main empty_store trips_table
            (mk_args ModeFilter "amt" None None (Some "not-a-date") None None None))
  = Ok (RFilter 0 None).
Proof. split; reflexivity. Qed.

Lemma filter_ci_distinct : forall cols c,
  ci_distinct cols = true -> In c cols -> filter (eq_ignore_case c) cols = [c].
Proof.
  induction cols as [|c0 cs IH]; intros c Hd Hin; [destruct Hin|].
  simpl in Hd. apply andb_prop in Hd. destruct Hd as [Hn Hd].
  apply negb_true_iff in Hn. simpl.
  destruct Hin as [<-|Hin].
  - unfold eq_ignore_case at 1. rewrite String.eqb_refl.
    rewrite (filter_nil_existsb _ _ Hn). reflexivity.
  - destruct (eq_ignore_case c c0) eqn:E.
    + exfalso. assert (E' : eq_ignore_case c0 c = true)
        by (unfold eq_ignore_case in *; rewrite String.eqb_sym; exact E).
      assert (Hx : existsb (eq_ignore_case c0) cs = true)
        by (apply existsb_exists; exists c; split; assumption).
      rewrite Hx in Hn. discriminate Hn.
    + exact (IH c Hd Hin).
Qed.

Lemma in_columns_In : forall c t, in_columns c t = true -> In c (df_columns t).
Proof.
  intros c t H. unfold in_columns in H. apply existsb_exists in H.
  destruct H as (x & Hx & E). apply String.eqb_eq in E. subst x. exact Hx.
Qed.

(** In a table Spark can read, the pickup column, when present, resolves. *)
Lemma time_col_resolves : forall t,
  ci_distinct (df_columns t) = true -> in_columns time_col t = true ->
  resolves time_col t = true.
Proof.
  intros t Hd Ht. unfold resolves, resolve.
  change (is_star time_col) with false.
  change (parse_attribute_name time_col) with (Some [time_col]). cbv iota beta.
  rewrite (filter_ci_distinct _ _ Hd (in_columns_In _ _ Ht)). reflexivity.
Qed.

Lemma refs_resolve_times : forall t a s e,
  ci_distinct (df_columns t) = true ->
  refs_resolve t (with_times a s e) = refs_resolve t (with_times a None None).
Proof.
  intros t a s e Hd. unfold refs_resolve, filter_refs. cbn [start end_ with_times].
  rewrite !forallb_app. f_equal.
  destruct (in_columns time_col t) eqn:Ht; [|reflexivity].
  rewrite forallb_app.
  destruct (truthy s), (truthy e); simpl; rewrite ?(time_col_resolves t Hd Ht); reflexivity.
Qed.

Lemma apply_filters_times : forall t a s e,
  in_columns time_col t = true ->
  apply_filters t (with_times a s e) =
  filter (fun r =>
            (match s with
             | Some x => if truthy (Some x) then holds (ge_str (lookup time_col r) x) else true
             | None => true
             end) &&
            (match e with
             | Some x => if truthy (Some x) then holds (le_str (lookup time_col r) x) else true
             | None => true
             end))
         (apply_filters t (with_times a None None)).
Proof.
  intros t a s e H. rewrite !apply_filters_as_filter, filter_compose.
  apply filter_ext. intros r. unfold passes. rewrite H.
  cbn [start end_ min_value max_value attribute with_times].
  destruct s as [x|]; [destruct (truthy (Some x))|];
    destruct e as [y|]; try destruct (truthy (Some y));
    repeat match goal with |- context [holds ?b] => destruct (holds b) end;
    destruct (match min_value a with Some _ => _ | None => _ end);
    destruct (match max_value a with Some _ => _ | None => _ end); reflexivity.
Qed.

Lemma apply_filters_times_nonempty : forall t a s e,
  apply_filters t (with_times a s e) <> [] ->
  apply_filters t (with_times a None None) <> [].
Proof.
  intros t a s e H E. apply H.
  destruct (in_columns time_col t) eqn:Ht.
  - rewrite (apply_filters_times t a s e Ht), E. reflexivity.
  - unfold apply_filters in *. rewrite Ht in *. exact E.
Qed.

(** C4 (amended): [start] and [end] are never parsed and never cause a
    failure: for a table Spark can read (no two columns equal ignoring
    case), a run with them fails only where the same run without them fails,
    with the same error.  They are ignored when the table has no
    [tpep_pickup_datetime] column; otherwise a non-empty [start] ([end])
    keeps, of the rows the bounds keep, those whose pickup value compares
    [>=] ([<=]) to the raw string: lexicographically for a string value,
    and a [null] value, or a false or [null] comparison, drops the row. *)
Theorem start_end_never_fail : forall fs t a s e,
  (ci_distinct (df_columns t) = true -> forall err,
   error_of (fst (main fs t (with_times a s e))) = Some err ->
   error_of (fst (main fs t (with_times a None None))) = Some err) /\
  (in_columns time_col t = false ->
   apply_filters t (with_times a s e) = apply_filters t a) /\
  (in_columns time_col t = true ->
   apply_filters t (with_times a s e) =
   filter (fun r =>
             (match s with
              | Some x => if truthy (Some x) then holds (ge_str (lookup time_col r) x) else true
              | None => true
              end) &&
             (match e with
              | Some x => if truthy (Some x) then holds (le_str (lookup time_col r) x) else true
              | None => true
              end))
          (apply_filters t (with_times a None None))) /\
  (forall v x, ge_str (Some (VStr v)) x =
               Some (match String.compare v x with Lt => false | _ => true end) /\
               le_str (Some (VStr v)) x =
               Some (match String.compare v x with Gt => false | _ => true end)) /\
  (forall x, ge_str None x = None /\ le_str None x = None /\ holds None = false).
Proof.
  intros fs t a s e. split; [|split; [|split; [|split]]].
  - intros Hd err. unfold main. cbn [attribute mode group_by with_times].
    destruct (in_columns (attribute a) t); [|exact (fun H => H)]. simpl.
    destruct (mode a).
    + unfold mode_filter. rewrite (refs_resolve_times t a s e Hd).
      destruct (refs_resolve t (with_times a None None)); simpl; [|exact (fun H => H)].
      cbn [attribute with_times].
      destruct (List.length (apply_filters t (with_times a s e)) =? 0)%nat eqn:E1;
        [discriminate|].
      assert (E2 : (List.length (apply_filters t (with_times a None None)) =? 0)%nat = false).
      { apply Nat.eqb_neq. intros E. apply length_zero_iff_nil in E.
        revert E. apply (apply_filters_times_nonempty t a s e). intros E.
        rewrite E in E1. discriminate E1. }
      rewrite E2. destruct (resolves (attribute a) t); exact (fun H => H).
    + unfold mode_group. cbn [group_by with_times attribute].
      destruct (group_by a) as [g|]; [|exact (fun H => H)].
      destruct (negb (truthy (Some g))); [exact (fun H => H)|].
      rewrite (refs_resolve_times t a s e Hd).
      destruct (refs_resolve t (with_times a None None)); simpl; [|exact (fun H => H)].
      destruct (resolve g (df_columns t)) as [c|]; [|exact (fun H => H)].
      destruct (resolves (attribute a) t); simpl; [|exact (fun H => H)].
      destruct (resolve g (c :: agg_aliases)); exact (fun H => H).
  - intros H. unfold apply_filters. rewrite H. reflexivity.
  - apply apply_filters_times.
  - intros v x. split; reflexivity.
  - intros x. split; [|split]; reflexivity.
Qed.

(** ** C5 *)





(** ** C7 *)

(** C7: with no bound and no time window, [apply_filters] returns the
    table's rows, unchanged and in order. *)
Theorem no_filters_keeps_rows : forall t a,
  min_value a = None -> max_value a = None -> start a = None -> end_ a = None ->
  apply_filters t a = rows t.
Proof.
  intros t a Hmin Hmax Hs He. unfold apply_filters.
  rewrite Hmin, Hmax, Hs, He. destruct (in_columns time_col t); reflexivity.
Qed.

Lemma no_filters_keeps_rows_witness :
  apply_filters trips_table (query ModeFilter "amt") = rows trips_table.
Proof.
  exact (no_filters_keeps_rows trips_table (query ModeFilter "amt")
           eq_refl eq_refl eq_refl eq_refl).
Defined.

(** ** C9 *)

(** C9: when a bound is given, every row [apply_filters] keeps has a
    non-null value in the attribute's column (the one Spark resolves
    [--attribute] to). *)
Theorem bound_filters_drop_nulls : forall t a r,
  (min_value a <> None \/ max_value a <> None) ->
  In r (apply_filters t a) -> lookup (col_of t (attribute a)) r <> None.
Proof.
  intros t a r Hb Hr. unfold apply_filters in Hr.
  destruct (max_value a) as [M|] eqn:EM.
  - apply in_filter_true in Hr. unfold le_num in Hr.
    destruct (lookup (col_of t (attribute a)) r); [discriminate | discriminate Hr].
  - destruct (min_value a) as [m|] eqn:Em.
    + apply in_filter_true in Hr. unfold ge_num in Hr.
      destruct (lookup (col_of t (attribute a)) r); [discriminate | discriminate Hr].
    + destruct Hb as [H|H]; contradiction H; reflexivity.
Qed.

Lemma bound_filters_drop_nulls_witness :
  lookup (col_of with_null_table "amt") (amt_zone 20 "A") <> None.
Proof.
  apply (bound_filters_drop_nulls with_null_table bounded_args (amt_zone 20 "A")).
  - left. discriminate.
  - simpl. right. left. reflexivity.
Defined.

(** ** C10 *)

(** C10: in filter mode, when no row passes the filters, the run returns
    before aggregating and before writing (it reports count 0, or has
    already failed at a filter column Spark cannot resolve): every output
    location keeps its contents, even when [--output] is given. *)
Theorem empty_filter_writes_nothing : forall fs t a,
  mode a = ModeFilter -> apply_filters t a = [] ->
  mode_filter fs t a =
    (if refs_resolve t a then Ok (RFilter 0 None) else Err AnalysisException, fs) /\
  snd (main fs t a) = fs.
Proof.
  intros fs t a Hm Hf.
  assert (H : mode_filter fs t a =
                (if refs_resolve t a then Ok (RFilter 0 None) else Err AnalysisException, fs))
    by (unfold mode_filter; rewrite Hf; destruct (refs_resolve t a); reflexivity).
  split; [exact H|]. unfold main. rewrite Hm.
  destruct (in_columns (attribute a) t); simpl; [rewrite H|]; reflexivity.
Qed.


Lemma empty_filter_writes_nothing_witness :
  snd (main empty_store scenario_table output_args) = empty_store.
Proof.
  exact (proj2 (empty_filter_writes_nothing empty_store scenario_table output_args
                  eq_refl eq_refl)).
Defined.


(** * Further properties of [apply_filters], the runs and the aggregates *)

Lemma filter_idem : forall (f : row -> bool) l, filter f (filter f l) = filter f l.
Proof.
  intros f l. rewrite filter_compose. apply filter_ext. intros x.
  destruct (f x); reflexivity.
Qed.

Lemma passes_columns : forall t t' a,
  columns t = columns t' -> passes t a = passes t' a.
Proof. intros t t' a H. unfold passes, col_of, in_columns, df_columns. rewrite H. reflexivity. Qed.

(** X1: [apply_filters] keeps exactly the rows that satisfy every condition
    it applies (the time window only when the pickup column exists, the
    bounds when given), in table order. *)
Theorem apply_filters_characterised : forall t a,
  apply_filters t a = filter (passes t a) (rows t).
Proof. exact apply_filters_as_filter. Qed.

(** X2: filtering the filtered rows again with the same arguments changes
    nothing. *)
Theorem apply_filters_idempotent : forall t a,
  apply_filters (mk_table (columns t) (apply_filters t a)) a = apply_filters t a.
Proof.
  intros t a. rewrite !apply_filters_as_filter. cbn [rows].
  rewrite (passes_columns (mk_table (columns t) _) t a eq_refl).
  apply filter_idem.
Qed.

Lemma ge_num_true : forall v m,
  holds (ge_num v m) = true -> exists q, cast_value v = Some q /\ m <= q.
Proof.
  intros [w|] m H; [|discriminate H]. unfold ge_num, holds in H. simpl.
  destruct (to_double w) as [q|]; [|discriminate H]. simpl in H.
  exists q. split; [reflexivity|]. apply Qle_bool_iff.
  destruct (Qle_bool m q); [reflexivity | discriminate H].
Qed.

Lemma le_num_true : forall v m,
  holds (le_num v m) = true -> exists q, cast_value v = Some q /\ q <= m.
Proof.
  intros [w|] m H; [|discriminate H]. unfold le_num, holds in H. simpl.
  destruct (to_double w) as [q|]; [|discriminate H]. simpl in H.
  exists q. split; [reflexivity|]. apply Qle_bool_iff.
  destruct (Qle_bool q m); [reflexivity | discriminate H].
Qed.

Lemma kept_rows_bounds : forall t a r,
  In r (apply_filters t a) ->
  (forall m, min_value a = Some m ->
     exists q, cast_value (lookup (col_of t (attribute a)) r) = Some q /\ m <= q) /\
  (forall m, max_value a = Some m ->
     exists q, cast_value (lookup (col_of t (attribute a)) r) = Some q /\ q <= m).
Proof.
  intros t a r H. rewrite apply_filters_as_filter in H.
  apply filter_In in H as [_ H]. unfold passes in H.
  apply andb_prop in H as [H Hmax]. apply andb_prop in H as [_ Hmin].
  split; intros m Em; [rewrite Em in Hmin | rewrite Em in Hmax].
  - apply ge_num_true, Hmin.
  - apply le_num_true, Hmax.
Qed.

(** X3: every row [apply_filters] keeps has, in the column Spark resolves
    the attribute to, a value that casts to a number, at least [min_value]
    and at most [max_value] when they are given. *)
Theorem kept_rows_within_bounds : forall t a r,
  In r (apply_filters t a) ->
  (forall m, min_value a = Some m ->
     exists q, cast_value (lookup (col_of t (attribute a)) r) = Some q /\ m <= q) /\
  (forall m, max_value a = Some m ->
     exists q, cast_value (lookup (col_of t (attribute a)) r) = Some q /\ q <= m).
Proof. exact kept_rows_bounds. Qed.

Lemma kept_rows_within_bounds_witness :
  exists q, cast_value (lookup (col_of scenario_table "amt") (amt_zone 10 "A")) = Some q /\ 8 <= q.
Proof.
  apply (proj1 (kept_rows_within_bounds scenario_table bounded_args (amt_zone 10 "A")
                  (or_introl eq_refl)) 8 eq_refl).
Defined.

(** X4: with [max_value] below [min_value] no row passes, whatever the table. *)
Theorem crossed_bounds_empty : forall t a m M,
  min_value a = Some m -> max_value a = Some M -> M < m -> apply_filters t a = [].
Proof.
  intros t a m M Hm HM Hlt.
  destruct (apply_filters t a) as [|r l] eqn:E; [reflexivity|]. exfalso.
  assert (Hr : In r (apply_filters t a)) by (rewrite E; left; reflexivity).
  destruct (kept_rows_bounds t a r Hr) as [H1 H2].
  destruct (H1 m Hm) as (q & Eq1 & Hq1). destruct (H2 M HM) as (q' & Eq2 & Hq2).
  rewrite Eq1 in Eq2. injection Eq2 as <-.
  apply (Qlt_not_le M m Hlt). apply Qle_trans with q; assumption.
Qed.

Lemma crossed_bounds_empty_witness :
  apply_filters scenario_table crossed_args = [].
Proof.
  apply (crossed_bounds_empty scenario_table crossed_args 100 1 eq_refl eq_refl).
  reflexivity.
Defined.

Lemma write_if_other : forall fs o d q,
  ~ (o = Some q /\ q <> "") -> write_if fs o d q = fs q.
Proof.
  intros fs [p|] d q H; [|reflexivity]. unfold write_if, truthy.
  destruct (String.eqb p "") eqn:Ep; [reflexivity|]. simpl. unfold write.
  destruct (String.eqb q p) eqn:Eq; [|reflexivity]. exfalso.
  apply String.eqb_eq in Eq. subst q. apply H. split; [reflexivity|].
  apply String.eqb_neq. exact Ep.
Qed.

(** The store after a run: unchanged, or written by [write_if] at the
    output argument. *)
(** X5: a run changes no output location other than the [--output] path
    (and none when [--output] is absent or empty). *)
Theorem run_writes_only_output : forall fs t a q,
  ~ (output a = Some q /\ q <> "") -> snd (main fs t a) q = fs q.
Proof.
  intros fs t a q H. destruct (main_store_shape fs t a) as [E|(d & E & _)];
    rewrite E; [reflexivity|]. apply write_if_other, H.
Qed.

Lemma run_writes_only_output_witness :
  snd (main empty_store scenario_table written_args) "hdfs:///other" = None.
Proof.
  apply (run_writes_only_output empty_store scenario_table written_args "hdfs:///other").
  intros [H _]. discriminate H.
Defined.

(** X6: a run that fails leaves every output location unchanged. *)
Theorem failed_run_writes_nothing : forall fs t a e,
  fst (main fs t a) = Err e -> snd (main fs t a) = fs.
Proof.
  intros fs t a e H. destruct (main_store_shape fs t a) as [E|(d & _ & r & Er)];
    [exact E|]. rewrite Er in H. discriminate H.
Qed.

Lemma failed_run_writes_nothing_witness :
  snd (main empty_store scenario_table (query ModeFilter "fare")) = empty_store.
Proof.
  apply (failed_run_writes_nothing _ _ _ AttributeNotFound). reflexivity.
Defined.

(** X7: a filter-mode run that keeps at least one row, on columns Spark
    resolves, writes the filtered rows to a non-empty [--output] path. *)
Theorem filter_run_writes_rows : forall fs t a p,
  mode a = ModeFilter -> in_columns (attribute a) t = true ->
  refs_resolve t a = true -> resolves (attribute a) t = true ->
  apply_filters t a <> [] -> output a = Some p -> p <> "" ->
  snd (main fs t a) p = Some (OutRows (apply_filters t a)).
Proof.
  intros fs t a p Hm Ha Hr Hat Hf Ho Hp. unfold main. rewrite Ha, Hm. simpl.
  unfold mode_filter. rewrite Hr. simpl.
  destruct (List.length (apply_filters t a) =? 0)%nat eqn:E0.
  - apply Nat.eqb_eq, length_zero_iff_nil in E0. contradiction.
  - rewrite Hat. simpl. rewrite Ho. unfold write_if, truthy.
    apply String.eqb_neq in Hp. rewrite Hp. simpl. unfold write.
    rewrite String.eqb_refl. reflexivity.
Qed.

Lemma filter_run_writes_rows_witness :
  snd (main empty_store scenario_table written_args) "hdfs:///out" =
  Some (OutRows [amt_zone 10 "A"; amt_zone 20 "A"]).
Proof.
  apply (filter_run_writes_rows empty_store scenario_table written_args "hdfs:///out");
    [reflexivity | reflexivity | reflexivity | reflexivity | discriminate | reflexivity
    | discriminate].
Defined.

(** X8: a successful group-mode run writes its grouped result to a
    non-empty [--output] path, also when there is no group. *)
Theorem group_run_writes_groups : forall fs t a gs fs' p,
  main fs t a = (Ok (RGroup gs), fs') -> output a = Some p -> p <> "" ->
  fs' p = Some (OutGroups gs).
Proof.
  intros fs t a gs fs' p H Ho Hp.
  destruct (main_group_ok fs t a gs fs' H) as (g & c & _ & _ & _ & _ & _ & _ & _ & _ & _ & ->).
  rewrite Ho. unfold write_if, truthy. apply String.eqb_neq in Hp. rewrite Hp.
  simpl. unfold write. rewrite String.eqb_refl. reflexivity.
Qed.

Lemma group_run_writes_groups_witness :
  write empty_store "hdfs:///out" (OutGroups []) "hdfs:///out" = Some (OutGroups []).
Proof.
  apply (group_run_writes_groups empty_store scenario_table empty_group_args []
           (write empty_store "hdfs:///out" (OutGroups [])) "hdfs:///out");
    [reflexivity | reflexivity | discriminate].
Defined.

Lemma fold_member : forall (f : option value -> option value -> option value),
  (forall acc w v, f acc w = Some v -> acc = Some v \/ w = Some v) ->
  forall vs acc v, fold_left f vs acc = Some v -> acc = Some v \/ In (Some v) vs.
Proof.
  intros f Hf. induction vs as [|w vs IH]; intros acc v H; [left; exact H|].
  simpl in H. destruct (IH _ _ H) as [H'|H'].
  - destruct (Hf _ _ _ H') as [E|E]; [left; exact E | right; left; rewrite E; reflexivity].
  - right. right. exact H'.
Qed.

Lemma min_step_member : forall acc w v,
  min_step acc w = Some v -> acc = Some v \/ w = Some v.
Proof.
  intros [x|] [y|] v H; simpl in H; auto.
  destruct (value_compare y x); injection H as <-; auto.
Qed.

Lemma max_step_member : forall acc w v,
  max_step acc w = Some v -> acc = Some v \/ w = Some v.
Proof.
  intros [x|] [y|] v H; simpl in H; auto.
  destruct (value_compare y x); injection H as <-; auto.
Qed.

(** X9: over a numeric attribute with at least one value, the reported min
    and max are values of the partition, and every value lies between them. *)
Theorem min_max_attained : forall attr df,
  numeric_values (attr_values attr df) ->
  num_values (attr_values attr df) <> [] ->
  exists mn mx,
    st_min (aggregate attr df) = Some (VNum mn) /\
    st_max (aggregate attr df) = Some (VNum mx) /\
    In (Some (VNum mn)) (attr_values attr df) /\
    In (Some (VNum mx)) (attr_values attr df) /\
    (forall q, In q (num_values (attr_values attr df)) -> mn <= q /\ q <= mx).
Proof.
  intros attr df Hnum Hne. set (vs := attr_values attr df) in *.
  destruct (min_fold_none vs Hnum Hne) as (mn & Emn & Hmn).
  destruct (max_fold_none vs Hnum Hne) as (mx & Emx & Hmx).
  exists mn, mx. unfold aggregate. fold vs. cbn [st_min st_max].
  split; [exact Emn|]. split; [exact Emx|].
  split; [|split].
  - destruct (fold_member min_step min_step_member vs None _ Emn) as [E|E];
      [discriminate E | exact E].
  - destruct (fold_member max_step max_step_member vs None _ Emx) as [E|E];
      [discriminate E | exact E].
  - intros q Hq. split; [apply Hmn | apply Hmx]; exact Hq.
Qed.

Lemma min_max_attained_witness :
  exists mn mx,
    st_min (aggregate "amt" (rows scenario_table)) = Some (VNum mn) /\
    st_max (aggregate "amt" (rows scenario_table)) = Some (VNum mx) /\
    In (Some (VNum mn)) (attr_values "amt" (rows scenario_table)) /\
    In (Some (VNum mx)) (attr_values "amt" (rows scenario_table)) /\
    (forall q, In q (num_values (attr_values "amt" (rows scenario_table))) ->
               mn <= q /\ q <= mx).
Proof.
  apply min_max_attained; [|simpl; discriminate].
  intros v Hv. simpl in Hv.
  destruct Hv as [Hv|[Hv|[Hv|[]]]]; injection Hv as <-; eexists; reflexivity.
Defined.

(** X10: a successful group run reports its groups with strictly ascending
    keys (the [orderBy] of [mode_group], [null] first): no key is repeated,
    and no two keys compare equal. *)
Theorem group_run_keys_ascending : forall fs t a gs fs',
  main fs t a = (Ok (RGroup gs), fs') ->
  StronglySorted (fun x y => key_compare x y = Lt) (map fst gs).
Proof.
  intros fs t a gs fs' H.
  destruct (main_group_ok _ _ _ _ _ H)
    as (g & c & _ & _ & _ & _ & _ & _ & _ & _ & -> & _).
  unfold grouped_stats. rewrite map_map.
  replace (map (fun x => fst (let '(k, rs) := x in
             (k, mk_stats (List.length rs) (aggregate (col_of t (attribute a)) rs))))
           (group_rows c (apply_filters t a)))
    with (map fst (group_rows c (apply_filters t a))).
  - apply group_rows_sorted.
  - apply map_ext. intros [k rs]. reflexivity.
Qed.

Lemma group_run_keys_ascending_witness :
  main empty_store scenario_table zone_args =
    (Ok (RGroup (grouped_stats "zone" "amt" (rows scenario_table))), empty_store) /\
  StronglySorted (fun x y => key_compare x y = Lt)
    (map fst (grouped_stats "zone" "amt" (rows scenario_table))).
Proof.
  split; [reflexivity|].
  apply (group_run_keys_ascending empty_store scenario_table zone_args _ empty_store).
  reflexivity.
Defined.

Lemma grouped_stats_inv : forall col attr df k s,
  In (k, s) (grouped_stats col attr df) ->
  exists rs, rs = filter (fun r => key_eqb (lookup col r) k) df /\ rs <> [] /\
             s = mk_stats (List.length rs) (aggregate attr rs).
Proof.
  intros col attr df k s Hin. unfold grouped_stats in Hin.
  apply in_map_iff in Hin. destruct Hin as ([k' rs] & E & Hin). injection E as <- <-.
  destruct (group_rows_inv col df) as [_ [Hb _]]. destruct (Hb _ _ Hin) as [H1 H2].
  exists rs. split; [exact H1|]. split; [exact H2 | reflexivity].
Qed.

(** X11: in a successful group run, [group_by] resolves to a column [c] of
    the table, the group of key [k] holds exactly the filtered rows whose
    [c] value compares equal to [k], in table order, and its statistics are
    their count and aggregate; every filtered row falls in some reported
    group. *)
Theorem group_run_partitions_rows : forall fs t a gs fs' g,
  main fs t a = (Ok (RGroup gs), fs') -> group_by a = Some g ->
  exists c, resolve g (df_columns t) = Some c /\
  (forall k s, In (k, s) gs ->
     exists rs, rs = filter (fun r => key_eqb (lookup c r) k) (apply_filters t a) /\
                s = mk_stats (List.length rs) (aggregate (col_of t (attribute a)) rs)) /\
  (forall r, In r (apply_filters t a) ->
     exists k s, In (k, s) gs /\ key_eqb (lookup c r) k = true).
Proof.
  intros fs t a gs fs' g H Hg.
  destruct (main_group_ok _ _ _ _ _ H)
    as (g' & c & _ & _ & Hg' & _ & _ & Ec & _ & _ & -> & _).
  rewrite Hg in Hg'. injection Hg' as <-. exists c. split; [exact Ec|]. split.
  - intros k s Hin. destruct (grouped_stats_inv _ _ _ _ _ Hin) as (rs & H1 & _ & H2).
    exists rs. split; assumption.
  - intros r Hr. destruct (group_rows_inv c (apply_filters t a)) as [_ [_ Hc]].
    destruct (Hc r Hr) as (k & rs & Hin & Hk).
    exists k, (mk_stats (List.length rs) (aggregate (col_of t (attribute a)) rs)).
    split; [|exact Hk].
    unfold grouped_stats. apply in_map_iff. exists (k, rs). split; [reflexivity | exact Hin].
Qed.

Lemma group_run_partitions_rows_witness :
  main empty_store scenario_table zone_args =
    (Ok (RGroup (grouped_stats "zone" "amt" (rows scenario_table))), empty_store) /\
  group_by zone_args = Some "zone" /\
  (exists c, resolve "zone" (df_columns scenario_table) = Some c /\
   (forall k s, In (k, s) (grouped_stats "zone" "amt" (rows scenario_table)) ->
     exists rs, rs = filter (fun r => key_eqb (lookup c r) k)
                            (apply_filters scenario_table zone_args) /\
                s = mk_stats (List.length rs)
                      (aggregate (col_of scenario_table (attribute zone_args)) rs)) /\
   (forall r, In r (apply_filters scenario_table zone_args) ->
     exists k s, In (k, s) (grouped_stats "zone" "amt" (rows scenario_table)) /\
                 key_eqb (lookup c r) k = true)).
Proof.
  split; [reflexivity|]. split; [reflexivity|].
  apply (group_run_partitions_rows empty_store scenario_table zone_args _ empty_store "zone");
    reflexivity.
Defined.

(** X12: a successful group run never reports an empty group: every group's
    count is at least 1. *)
Theorem group_run_counts_positive : forall fs t a gs fs' k s,
  main fs t a = (Ok (RGroup gs), fs') -> In (k, s) gs -> (1 <= st_count s)%nat.
Proof.
  intros fs t a gs fs' k s H Hin.
  destruct (main_group_ok _ _ _ _ _ H)
    as (g & c & _ & _ & _ & _ & _ & _ & _ & _ & -> & _).
  destruct (grouped_stats_inv _ _ _ _ _ Hin) as (rs & _ & Hne & ->). simpl.
  destruct rs; [contradiction Hne; reflexivity | simpl; lia].
Qed.

Lemma group_run_counts_positive_witness :
  main empty_store scenario_table zone_args =
    (Ok (RGroup (grouped_stats "zone" "amt" (rows scenario_table))), empty_store) /\
  In (Some (VStr "B"), mk_stats 1 (aggregate "amt" [amt_zone 5 "B"]))
     (grouped_stats "zone" "amt" (rows scenario_table)) /\
  (1 <= st_count (mk_stats 1 (aggregate "amt" [amt_zone 5 "B"])))%nat.
Proof.
  split; [reflexivity|]. split; [simpl; right; left; reflexivity|].
  apply (group_run_counts_positive empty_store scenario_table zone_args
           (grouped_stats "zone" "amt" (rows scenario_table)) empty_store (Some (VStr "B")));
    [reflexivity | simpl; right; left; reflexivity].
Defined.
